(** * sgkit/window.py: windowed statistics over a chunked array

    A shallow embedding of [sgkit/window.py] and the properties of its
    window generator, chunk mapper, halo rebalancer, block-local reducer
    and moving-statistic front end.

    Modelling conventions.
    - Python [int]s and the entries of numpy integer arrays are [Z]; a
      one-dimensional numpy integer array or a tuple of ints is a [list Z].
    - A Python exception is a value of [exn]; a computation that may raise
      returns [result].
    - Arrays are one-dimensional ([values.ndim == 1]); the leading axis is
      the only axis that [window.py] computes on.
    - numpy and Python built-ins ([np.arange], [np.clip], [np.cumsum],
      [np.insert], [np.searchsorted], [np.unique], [np.min], [np.max],
      indexing and slicing) are modelled by their documented behaviour.
    - The call [values.map_overlap(...)] that [window_statistic] returns is
      lazy: it is represented by the record of its arguments.  A result
      [Ok call] therefore says that [window_statistic] has reached that
      call with the arguments [call].  What dask does with them, including
      the errors it raises for a depth larger than a chunk (the comment
      at lines 96-98) or for output chunks that do not match the blocks,
      belongs to dask and is not modelled; neither is a failure of
      [values.rechunk]. *)

From Stdlib Require Import ZArith Lia List Bool.
From stdpp Require Import base tactics option list list_numbers sorting.
From stdpp Require Import strings gmap.

Local Open Scope Z_scope.
Local Coercion Z.of_nat : nat >-> Z.

(** ** Exceptions and the error monad *)

Inductive exn : Type :=
  | ValueError_min_chunksize (min_chunksize size : Z)
      (* raised by [moving_statistic]:
         "Minimum chunk size (..) must not be smaller than size (..)." *)
  | ValueError_zero_size_reduction
      (* [np.min] / [np.max] of an empty array *)
  | ValueError_broadcast
      (* operands could not be broadcast together *)
  | ZeroDivisionError
      (* [np.arange] with a zero step *)
  | IndexError
  | KeyError
  | StatisticError (code : Z).
      (* whatever the user-supplied statistic raises *)

Inductive result (A : Type) : Type :=
  | Ok (a : A)
  | Raise (e : exn).
Global Arguments Ok {A} a.
Global Arguments Raise {A} e.

Global Instance result_bind : MBind result := λ A B k m,
  match m with
  | Ok a => k a
  | Raise e => Raise e
  end.
Global Instance result_ret : MRet result := λ A a, Ok a.

(** The list comprehension [[f(a) for a in l]] with a body that may raise:
    evaluated left to right, the first exception aborts. *)
Fixpoint comprehension {A B} (f : A → result B) (l : list A) : result (list B) :=
  match l with
  | [] => Ok []
  | a :: l' => b ← f a; bs ← comprehension f l'; Ok (b :: bs)
  end.

(** ** Python and numpy primitives *)

Definition len {A} (l : list A) : Z := Z.of_nat (length l).

(** [l[i]]: a negative index counts from the end, an index out of range
    raises [IndexError]. *)
Definition py_index {A} (l : list A) (i : Z) : result A :=
  let j := if i <? 0 then i + len l else i in
  if j <? 0 then Raise IndexError
  else match l !! Z.to_nat j with
       | Some a => Ok a
       | None => Raise IndexError
       end.

(** Bound of a slice: negative bounds count from the end, then both are
    clamped to [0, len]. *)
Definition slice_bound (n i : Z) : Z :=
  if i <? 0 then Z.max 0 (i + n) else Z.min i n.

(** [l[i:j]]. *)
Definition py_slice {A} (l : list A) (i j : Z) : list A :=
  let lo := slice_bound (len l) i in
  let hi := slice_bound (len l) j in
  take (Z.to_nat (hi - lo)) (drop (Z.to_nat lo) l).

(** [l[:j]]. *)
Definition py_slice_to {A} (l : list A) (j : Z) : list A := py_slice l 0 j.

(** [a[idx]] with an integer index array [idx]. *)
Definition np_take (a : list Z) (idx : list Z) : result (list Z) :=
  comprehension (py_index a) idx.

(** ceil(a / b), for [b ≠ 0]. *)
Definition ceil_div (a b : Z) : Z := - ((- a) / b).

(** [np.arange(start, stop, step)] on integers: the values
    [start + i*step] for [0 ≤ i < ceil((stop - start) / step)]. *)
Definition arange_values (start stop step : Z) : list Z :=
  (λ i, start + i * step) <$> seqZ 0 (ceil_div (stop - start) step).
Definition np_arange (start stop step : Z) : result (list Z) :=
  if step =? 0 then Raise ZeroDivisionError
  else Ok (arange_values start stop step).

(** [np.clip(a, a_min, a_max)] is [np.minimum(a_max, np.maximum(a, a_min))]. *)
Definition clip1 (a_min a_max x : Z) : Z := Z.min a_max (Z.max x a_min).
Definition np_clip (a : list Z) (a_min a_max : Z) : list Z :=
  clip1 a_min a_max <$> a.

(** [a + k] for a scalar [k]. *)
Definition np_add_scalar (a : list Z) (k : Z) : list Z := (λ x, x + k) <$> a.

(** Elementwise binary operation on two one-dimensional arrays, with
    numpy's broadcasting of a length-one operand. *)
Definition np_binop (f : Z → Z → Z) (a b : list Z) : result (list Z) :=
  if len a =? len b then Ok (zip_with f a b)
  else match a, b with
       | [x], _ => Ok (f x <$> b)
       | _, [y] => Ok ((λ x, f x y) <$> a)
       | _, _ => Raise ValueError_broadcast
       end.

Definition np_sub := np_binop Z.sub.
Definition np_add := np_binop Z.add.

(** [np.max(a)] and [np.min(a)]: an empty array has no maximum. *)
Definition np_max (a : list Z) : result Z :=
  match a with
  | [] => Raise ValueError_zero_size_reduction
  | x :: a' => Ok (foldl Z.max x a')
  end.

Definition np_min (a : list Z) : result Z :=
  match a with
  | [] => Raise ValueError_zero_size_reduction
  | x :: a' => Ok (foldl Z.min x a')
  end.

(** [np.cumsum(a)], with the running total [acc] so far. *)
Fixpoint cumsum_from (acc : Z) (a : list Z) : list Z :=
  match a with
  | [] => []
  | x :: a' => (acc + x) :: cumsum_from (acc + x) a'
  end.
Definition np_cumsum (a : list Z) : list Z := cumsum_from 0 a.

(** [np.insert(a, 0, v, axis=0)]. *)
Definition np_insert0 (a : list Z) (v : Z) : list Z := v :: a.

(** [np.searchsorted(a, v, side="right")] for one key [v] and an ascending
    array [a]: the insertion point [i] with [a[:i] <= v < a[i:]], which is
    the position of the first element greater than [v]. *)
Fixpoint searchsorted_right1 (a : list Z) (v : Z) : Z :=
  match a with
  | [] => 0
  | x :: a' => if x <=? v then 1 + searchsorted_right1 a' v else 0
  end.
Definition np_searchsorted_right (a : list Z) (vs : list Z) : list Z :=
  searchsorted_right1 a <$> vs.

(** [np.unique(a, return_counts=True)]: the sorted distinct values of [a]
    and how often each occurs.  [unique_insert] files one more value into
    the sorted table of (value, count) pairs. *)
Fixpoint unique_insert (v : Z) (t : list (Z * Z)) : list (Z * Z) :=
  match t with
  | [] => [(v, 1)]
  | (u, c) :: t' =>
      if v <? u then (v, 1) :: (u, c) :: t'
      else if v =? u then (u, c + 1) :: t'
      else (u, c) :: unique_insert v t'
  end.
Definition unique_table (a : list Z) : list (Z * Z) :=
  foldr unique_insert [] a.
Definition np_unique_counts (a : list Z) : list Z * list Z :=
  (fst <$> unique_table a, snd <$> unique_table a).

Definition sumZ (l : list Z) : Z := foldr Z.add 0 l.

(** ** Window definition *)

(** [_get_windows(start, stop, size, step)]. *)
Definition _get_windows (start stop size step : Z) : result (list Z * list Z) :=
  window_starts ← np_arange start stop step;
  let window_stops := np_clip (np_add_scalar window_starts size) start stop in
  Ok (window_starts, window_stops).

(** ** Computing statistics for windows *)

(** [_sizes_to_start_offsets(sizes)]: cumulative offsets, starting with 0. *)
Definition _sizes_to_start_offsets (sizes : list Z) : list Z :=
  np_cumsum (np_insert0 sizes 0).

(** The local [chunk_numbers] of [_get_chunked_windows]: which chunk each
    window falls in. *)
Definition chunk_numbers_of (chunks window_starts : list Z) : list Z :=
  let chunk_starts := _sizes_to_start_offsets chunks in
  np_add_scalar (np_searchsorted_right chunk_starts window_starts) (-1).

(** [_get_chunked_windows(chunks, length, window_starts, window_stops)]:
    the window start positions relative to the start of the chunk they are
    in, and the number of windows in each chunk.  [length] and
    [window_stops] are not used by the body. *)
Definition _get_chunked_windows
    (chunks : list Z) (length : Z) (window_starts window_stops : list Z)
  : result (list Z * list Z) :=
  let chunk_starts := _sizes_to_start_offsets chunks in
  let chunk_numbers := chunk_numbers_of chunks window_starts in
  starts_of_chunks ← np_take chunk_starts chunk_numbers;
  rel_window_starts ← np_sub window_starts starts_of_chunks;
  let '(_, windows_per_chunk) := np_unique_counts chunk_numbers in
  Ok (rel_window_starts, windows_per_chunk).

(** Lines 99-101 of [window_statistic] on the chunk lengths of the first
    axis: when the depth exceeds the last chunk, the last two chunks are
    combined. *)
Definition rebalance_chunks (depth : Z) (chunk0 : list Z) : result (list Z) :=
  last_chunk ← py_index chunk0 (-1);
  if last_chunk <? depth then
    let front := py_slice_to chunk0 (-2) in
    c2 ← py_index chunk0 (-2);
    c1 ← py_index chunk0 (-1);
    Ok (front ++ [c2 + c1])
  else Ok chunk0.

(** [block_info] is a dict from the position of an input array ([0]) or
    [None] (the output) to the description of the block. *)
Inductive info_key : Type := KInput (i : Z) | KOutput.

Global Instance info_key_eq_dec : EqDecision info_key.
Proof. solve_decision. Defined.

Record block_desc : Type := { chunk_location : list Z }.

Definition block_info_t : Type := list (info_key * block_desc).

Fixpoint dict_get (d : block_info_t) (k : info_key) : result block_desc :=
  match d with
  | [] => Raise KeyError
  | (k', v) :: d' => if decide (k = k') then Ok v else dict_get d' k
  end.

Section Pipeline.
(** Element type of the array, result type of the statistic, and type of
    the keyword arguments handed through to the statistic. *)
Context {A B K : Type}.

(** A one-dimensional dask array: its elements and the chunk lengths of
    its first axis ([values.chunks[0]]). *)
Record darray : Type := { arr_data : list A; arr_chunks : list Z }.

Definition shape0 (values : darray) : Z := len (arr_data values).

(** [values.rechunk((new_chunk0, None, ...))]: new chunk lengths for the
    first axis; [None] leaves the chunks of another axis as they are. *)
Definition rechunk (values : darray) (new_chunk0 : list Z) : darray :=
  {| arr_data := arr_data values; arr_chunks := new_chunk0 |}.

(** The closure [blockwise_moving_stat] of [window_statistic], with the
    variables it captures as parameters. *)
Definition blockwise_moving_stat
    (statistic : list A → K → result B) (kwargs : K)
    (chunk_offsets rel_window_starts rel_window_stops : list Z)
    (x : list A) (block_info : option block_info_t) : result (list B) :=
  match block_info with
  | None => Ok []
  | Some bi =>
      if len bi =? 0 then Ok []
      else
        info ← dict_get bi (KInput 0);
        chunk_number ← py_index (chunk_location info) 0;
        chunk_offset_start ← py_index chunk_offsets chunk_number;
        chunk_offset_stop ← py_index chunk_offsets (chunk_number + 1);
        let chunk_window_starts :=
          py_slice rel_window_starts chunk_offset_start chunk_offset_stop in
        let chunk_window_stops :=
          py_slice rel_window_stops chunk_offset_start chunk_offset_stop in
        comprehension (λ '(i, j), statistic (py_slice x i j) kwargs)
                      (zip chunk_window_starts chunk_window_stops)
  end.

(** The lazy result of [values.map_overlap(func, dtype=dtype,
    chunks=new_chunks, depth=depth, boundary=0, trim=False)]: the
    arguments of the call.  Dask's own checks of these arguments are not
    part of the record. *)
Record map_overlap_call : Type := {
  mo_values : darray;
  mo_func : list A → option block_info_t → result (list B);
  mo_chunks : list Z;
  mo_depth : Z
}.

(** [window_statistic(values, statistic, window_starts, window_stops,
    dtype, **kwargs)]. *)
Definition window_statistic
    (values : darray) (statistic : list A → K → result B)
    (window_starts window_stops : list Z) (kwargs : K)
  : result map_overlap_call :=
  let length := shape0 values in
  window_lengths ← np_sub window_stops window_starts;
  depth ← np_max window_lengths;
  new_chunk0 ← rebalance_chunks depth (arr_chunks values);
  let values := rechunk values new_chunk0 in
  let chunks := arr_chunks values in
  '(rel_window_starts, windows_per_chunk) ←
    _get_chunked_windows chunks length window_starts window_stops;
  let rel_window_starts := np_add_scalar rel_window_starts depth in
  rel_window_stops ← np_add rel_window_starts window_lengths;
  let chunk_offsets := _sizes_to_start_offsets windows_per_chunk in
  Ok {| mo_values := values;
        mo_func := blockwise_moving_stat statistic kwargs chunk_offsets
                     rel_window_starts rel_window_stops;
        mo_chunks := windows_per_chunk;
        mo_depth := depth |}.

(** [moving_statistic(values, statistic, size, step, dtype, **kwargs)]. *)
Definition moving_statistic
    (values : darray) (statistic : list A → K → result B)
    (size step : Z) (kwargs : K) : result map_overlap_call :=
  let length := shape0 values in
  let chunks := arr_chunks values in
  min_chunksize ←
    (if 1 <? len chunks then np_min (py_slice_to chunks (-1))
     else np_min chunks);
  if min_chunksize <? size then
    Raise (ValueError_min_chunksize min_chunksize size)
  else
    '(window_starts, window_stops) ← _get_windows 0 length size step;
    window_statistic values statistic window_starts window_stops kwargs.

End Pipeline.

Global Arguments darray : clear implicits.
Global Arguments map_overlap_call : clear implicits.

(** ** Predicates used in the statements *)

(** A sequence is monotonically non-decreasing. *)
Definition nondecreasing (l : list Z) : Prop :=
  ∀ (i j : nat) (a b : Z), (i ≤ j)%nat → l !! i = Some a → l !! j = Some b → a ≤ b.

(** Every window lies inside [0, L), is non-empty and at most [S] long. *)
Definition windows_within (L S : Z) (starts stops : list Z) : Prop :=
  ∀ (i : nat) (a b : Z),
    starts !! i = Some a → stops !! i = Some b →
    0 ≤ a ∧ a < b ∧ b ≤ L ∧ b - a ≤ S.

(** The property of the windows of [_get_windows 0 L S T] with the last
    window required to end at [L]. *)
Definition windows_reach_end (L S T : Z) : Prop :=
  ∀ starts stops : list Z,
    _get_windows 0 L S T = Ok (starts, stops) →
    windows_within L S starts stops ∧ last stops = Some L.

(** How often [v] occurs in [l]. *)
Fixpoint occurrences (v : Z) (l : list Z) : Z :=
  match l with
  | [] => 0
  | x :: l' => (if decide (x = v) then 1 else 0) + occurrences v l'
  end.

(** The position that [l[i]] selects when [i] is in range. *)
Definition wrap_index {A} (l : list A) (i : Z) : nat :=
  Z.to_nat (if i <? 0 then i + len l else i).

(** The count that a table of (value, count) pairs holds for [u], or 0 when
    [u] has no entry. *)
Fixpoint table_count (t : list (Z * Z)) (u : Z) : Z :=
  match t with
  | [] => 0
  | (k, c) :: t' => (if decide (k = u) then c else 0) + table_count t' u
  end.

(** [depth] is the maximum of [stop − start] over the windows. *)
Definition is_max_window_length (depth : Z) (ws we : list Z) : Prop :=
  (∀ (i : nat) (s e : Z), ws !! i = Some s → we !! i = Some e → e - s ≤ depth)
  ∧ ∃ (i : nat) (s e : Z), ws !! i = Some s ∧ we !! i = Some e ∧ depth = e - s.

(** The windows are index ranges of an array of length [total]: one stop
    per start, no start before 0, no stop after [total]. *)
Definition windows_in_array (total : Z) (ws we : list Z) : Prop :=
  length ws = length we
  ∧ ∀ (i : nat) (s e : Z), ws !! i = Some s → we !! i = Some e → 0 ≤ s ∧ e ≤ total.

(** The chunks of a dask array: at least one, and their lengths sum to the
    length of the array. *)
Definition well_chunked {A} (values : darray A) : Prop :=
  arr_chunks values ≠ [] ∧ sumZ (arr_chunks values) = shape0 values.

(** The combined length of the last two chunks (of the only chunk, when
    there is one). *)
Definition last_two_total (chunks : list Z) : Z :=
  sumZ (drop (length chunks - 2) chunks).

(** Rebalancing the chunks that rebalancing produced changes nothing. *)
Definition rebalance_fixed_point (depth : Z) (chunks : list Z) : Prop :=
  ∀ new_chunk0 : list Z,
    rebalance_chunks depth chunks = Ok new_chunk0 →
    rebalance_chunks depth new_chunk0 = Ok new_chunk0.

(** A statistic used in the examples: the sum of the window. *)
Definition sum_statistic (x : list Z) (_ : unit) : result Z := Ok (sumZ x).

(** [window_statistic] accepts an empty window set: it returns, with depth
    0 and an output of no chunks. *)
Definition empty_windows_accepted {A B K}
    (values : darray A) (statistic : list A → K → result B) (kwargs : K) : Prop :=
  ∃ call : map_overlap_call A B,
    window_statistic values statistic [] [] kwargs = Ok call
    ∧ mo_depth call = 0
    ∧ mo_chunks call = [].

(** [moving_statistic] raises its chunk-size error exactly when some chunk
    other than the last is shorter than [size]. *)
Definition raises_iff_interior_small {A B K}
    (values : darray A) (statistic : list A → K → result B)
    (size step : Z) (kwargs : K) : Prop :=
  (∃ m, moving_statistic values statistic size step kwargs
        = Raise (ValueError_min_chunksize m size))
  ↔ Exists (λ c, c < size) (removelast (arr_chunks values)).

(** The [block_info] that the runtime passes for the block at position
    [k] of a one-dimensional array. *)
Definition block_info_at (k : Z) : option block_info_t :=
  Some [(KInput 0, {| chunk_location := [k] |});
        (KOutput, {| chunk_location := [k] |})].

(** The window start [w] falls in chunk [c]: [c] is a chunk index and [w]
    lies from the chunk's start offset up to, not including, the start
    offset of the next chunk. *)
Definition in_chunk (chunks : list Z) (c : nat) (w : Z) : Prop :=
  (c < length chunks)%nat
  ∧ sumZ (take c chunks) ≤ w
  ∧ w < sumZ (take (S c) chunks).

(** How many of the window starts [ws] fall in chunk [c]. *)
Definition windows_in_chunk (chunks : list Z) (c : nat) (ws : list Z) : Z :=
  len (filter (λ w, sumZ (take c chunks) ≤ w ∧ w < sumZ (take (S c) chunks)) ws).

(** ** Further predicates *)

(** The position [p] lies in the window [i] of [starts] and [stops]. *)
Definition in_window (starts stops : list Z) (i : nat) (p : Z) : Prop :=
  ∃ s e : Z, starts !! i = Some s ∧ stops !! i = Some e ∧ s ≤ p ∧ p < e.

(** How many entries of [l] are below [k]. *)
Fixpoint count_below (k : Z) (l : list Z) : nat :=
  match l with
  | [] => 0%nat
  | x :: l' => ((if decide (x < k)%Z then 1 else 0) + count_below k l')%nat
  end.

(** The block [x] that the runtime hands to the reducer holds the elements
    of [data] at the positions from [lo] up to [hi], moved to start at 0:
    position [p] of [data] is position [p - lo] of [x].  Positions of [x]
    that correspond to no position of [data] (the padding at the ends of
    the array) are not constrained. *)
Definition holds_range {A} (data x : list A) (lo hi : Z) : Prop :=
  ∀ (p : nat) (a : A),
    data !! p = Some a → lo ≤ p → p < hi → x !! Z.to_nat (p - lo) = Some a.

(** The windows are non-empty-or-empty index ranges that start inside an
    array of length [total] and stop no later than its end. *)
Definition windows_start_inside (total : Z) (ws we : list Z) : Prop :=
  ∀ (i : nat) (s e : Z),
    ws !! i = Some s → we !! i = Some e →
    0 ≤ s ∧ s < total ∧ s ≤ e ∧ e ≤ total.

(** ** Example inputs *)

(** Ten elements in chunks of 4, 3 and 3. *)
Definition example_values : darray Z :=
  {| arr_data := [0; 1; 2; 3; 4; 5; 6; 7; 8; 9]; arr_chunks := [4; 3; 3] |}.

(** What [window_statistic] returns for [example_values], the sum as the
    statistic and the windows [0,3), [3,6), [6,9), [9,10). *)
Definition example_call : map_overlap_call Z Z :=
  {| mo_values := example_values;
     mo_func := blockwise_moving_stat sum_statistic tt
                  [0; 2; 3; 4] [3; 6; 5; 5] [6; 9; 8; 6];
     mo_chunks := [2; 1; 1];
     mo_depth := 3 |}.

(** ** Window definition on a dataset *)

(** An xarray [Dataset]: the sizes of its dimensions ([ds.dims]) and its
    variables, each with the name of its dimension and its values. *)
Record dataset : Type := {
  ds_dims : gmap string Z;
  ds_vars : gmap string (string * list Z)
}.

(** [name in ds]. *)
Definition ds_contains (ds : dataset) (name : string) : bool :=
  bool_decide (is_Some (ds_vars ds !! name)).

(** [Dataset({"window_start": ("windows", window_starts),
              "window_stop": ("windows", window_stops)})]. *)
Definition windows_dataset (window_starts window_stops : list Z) : dataset :=
  {| ds_dims := {[ "windows" := len window_starts ]};
     ds_vars := <[ "window_start" := ("windows", window_starts) ]>
                  {[ "window_stop" := ("windows", window_stops) ]} |}.

(** [has_windows(ds)]. *)
Definition has_windows (ds : dataset) : bool :=
  ds_contains ds "window_start" && ds_contains ds "window_stop".

(** [window(ds, size, step, merge)].  [conditional_merge_datasets] comes
    from [sgkit.utils], outside this file, and is a parameter. *)
Definition window
    (conditional_merge_datasets : dataset → dataset → bool → result dataset)
    (ds : dataset) (size step : Z) (merge : bool) : result dataset :=
  n_variants ← match ds_dims ds !! "variants" with
               | Some n => Ok n
               | None => Raise KeyError
               end;
  let length := n_variants in
  '(window_starts, window_stops) ← _get_windows 0 length size step;
  let new_ds := windows_dataset window_starts window_stops in
  conditional_merge_datasets ds new_ds merge.

(** A merge keeps the variables of the dataset that is merged in. *)
Definition keeps_new_variables
    (conditional_merge_datasets : dataset → dataset → bool → result dataset) : Prop :=
  ∀ (ds new_ds merged : dataset) (merge : bool) (name : string),
    conditional_merge_datasets ds new_ds merge = Ok merged →
    ds_contains new_ds name = true → ds_contains merged name = true.

(** A merge used in the examples: the new dataset alone, or its variables
    and dimensions added to those of [ds]. *)
Definition example_merge (ds new_ds : dataset) (merge : bool) : result dataset :=
  if merge
  then Ok {| ds_dims := ds_dims new_ds ∪ ds_dims ds;
             ds_vars := ds_vars new_ds ∪ ds_vars ds |}
  else Ok new_ds.

(** * Properties *)

(** ** Arithmetic and list helpers *)

Lemma ceil_div_lt a b i : 0 < b → (i < ceil_div a b ↔ i * b < a).
Proof.
  intros Hb. unfold ceil_div.
  pose proof (Z.div_mod (- a) b ltac:(lia)) as Hdm.
  pose proof (Z.mod_pos_bound (- a) b Hb) as Hr.
  split; intros H; nia.
Qed.

Lemma len_nonneg {A} (l : list A) : 0 ≤ len l.
Proof. unfold len; lia. Qed.

Lemma np_arange_ok start stop step :
  step ≠ 0 →
  np_arange start stop step
  = Ok (arange_values start stop step).
Proof. intros H. unfold np_arange. by destruct (Z.eqb_spec step 0). Qed.

Lemma arange_lookup start stop step (i : nat) :
  0 < step →
  (arange_values start stop step) !! i
  = if decide (start + i * step < stop) then Some (start + i * step) else None.
Proof.
  intros Hs. unfold arange_values. rewrite list_lookup_fmap.
  pose proof (ceil_div_lt (stop - start) step i Hs) as Hc.
  destruct (decide (start + i * step < stop)) as [Hlt|Hge].
  - rewrite lookup_seqZ_lt by lia. simpl. do 2 f_equal.
  - rewrite lookup_seqZ_ge by lia. done.
Qed.

Lemma arange_length_lt start stop step (i : nat) :
  0 < step →
  (i < length (arange_values start stop step))%nat
  ↔ start + i * step < stop.
Proof.
  intros Hs. rewrite <- lookup_lt_is_Some, arange_lookup by done.
  destruct (decide _); split; intros H; done.
Qed.

(** ** The window generator *)

(** What [_get_windows] returns for a positive step, index by index. *)
Lemma get_windows_lookup (start stop size step : Z) :
  1 ≤ step →
  ∃ starts stops : list Z,
    _get_windows start stop size step = Ok (starts, stops)
    ∧ length starts = length stops
    ∧ (∀ i : nat, starts !! i
         = if decide (start + i * step < stop)
           then Some (start + i * step) else None)
    ∧ (∀ i : nat, stops !! i
         = if decide (start + i * step < stop)
           then Some (clip1 start stop (start + i * step + size)) else None).
Proof.
  intros Hstep.
  unfold _get_windows. rewrite np_arange_ok by lia. simpl.
  eexists _, _. split; [reflexivity|].
  assert (Hlk : ∀ i : nat, arange_values start stop step !! i
      = if decide (start + i * step < stop) then Some (start + i * step) else None).
  { intros i. apply arange_lookup. lia. }
  split; [|split; [done|]].
  - unfold np_clip, np_add_scalar. by rewrite !length_fmap.
  - intros i. unfold np_clip, np_add_scalar. rewrite !list_lookup_fmap, Hlk.
    by destruct (decide _).
Qed.

(** C3. For integers [0 ≤ start < stop], [size ≥ 1], [step ≥ 1],
    [_get_windows start stop size step] returns without error two sequences
    of equal length; index [i] is present exactly when
    [start + i*step < stop]; there [starts[i] = start + i*step] and
    [stops[i]] is [min (starts[i] + size) stop] clamped to be at least
    [start]; both sequences are monotonically non-decreasing. *)
Theorem get_windows_spec (start stop size step : Z) :
  0 ≤ start < stop → 1 ≤ size → 1 ≤ step →
  ∃ starts stops : list Z,
    _get_windows start stop size step = Ok (starts, stops)
    ∧ length starts = length stops
    ∧ (∀ i : nat, (i < length starts)%nat ↔ start + i * step < stop)
    ∧ (∀ i : nat, (i < length starts)%nat →
         starts !! i = Some (start + i * step)
         ∧ stops !! i = Some (Z.max start (Z.min (start + i * step + size) stop)))
    ∧ nondecreasing starts
    ∧ nondecreasing stops.
Proof.
  intros Hss Hsize Hstep.
  destruct (get_windows_lookup start stop size step Hstep)
    as (starts & stops & Heq & Hlen & Hlk & Hstop).
  exists starts, stops. split; [done|]. split; [done|].
  assert (Hdom : ∀ i : nat, (i < length starts)%nat ↔ start + i * step < stop).
  { intros i. rewrite <- lookup_lt_is_Some, Hlk.
    destruct (decide _); split; intros H; done. }
  split; [done|]. split; [|split].
  - intros i Hi. apply Hdom in Hi. rewrite Hlk, Hstop, !decide_True by done.
    split; [done|]. f_equal. unfold clip1. lia.
  - intros i j a b Hij. rewrite !Hlk.
    repeat destruct (decide _); intros; simplify_eq. nia.
  - intros i j a b Hij. rewrite !Hstop. unfold clip1.
    repeat destruct (decide _); intros; simplify_eq. nia.
Qed.

Lemma get_windows_spec_witness :
  ∃ starts stops : list Z,
    _get_windows 2 10 3 3 = Ok (starts, stops)
    ∧ length starts = length stops
    ∧ (∀ i : nat, (i < length starts)%nat ↔ 2 + i * 3 < 10)
    ∧ (∀ i : nat, (i < length starts)%nat →
         starts !! i = Some (2 + i * 3)
         ∧ stops !! i = Some (Z.max 2 (Z.min (2 + i * 3 + 3) 10)))
    ∧ nondecreasing starts
    ∧ nondecreasing stops.
Proof. apply (get_windows_spec 2 10 3 3); lia. Defined.

(** C4 (counterexample). The windows of [_get_windows 0 10 1 4] are
    [0,1), [4,5), [8,9): the last one stops at 9, short of the length 10. *)
Lemma get_windows_last_stop_short :
  1 ≤ 10 ∧ 1 ≤ 1 ∧ 1 ≤ 4 ∧ ¬ windows_reach_end 10 1 4.
Proof.
  repeat split; try lia. intros H.
  destruct (H [0; 4; 8] [1; 5; 9] eq_refl) as [_ Hlast].
  vm_compute in Hlast. discriminate.
Qed.

(** C4 (amended). For [L ≥ 1], [S ≥ 1], [T ≥ 1], [_get_windows 0 L S T]
    returns at least one window, every window satisfies
    [0 ≤ start < stop ≤ L] and [stop − start ≤ S], and the last window
    stops at [L] whenever the step does not exceed the size. *)
Theorem get_windows_bounds (L S T : Z) :
  1 ≤ L → 1 ≤ S → 1 ≤ T →
  ∃ starts stops : list Z,
    _get_windows 0 L S T = Ok (starts, stops)
    ∧ starts ≠ []
    ∧ windows_within L S starts stops
    ∧ (T ≤ S → last stops = Some L).
Proof.
  intros HL HS HT.
  destruct (get_windows_lookup 0 L S T HT)
    as (starts & stops & Heq & Hlen & Hlk & Hstop).
  exists starts, stops. split; [done|].
  assert (Hdom : ∀ i : nat, (i < length starts)%nat ↔ 0 + i * T < L).
  { intros i. rewrite <- lookup_lt_is_Some, Hlk.
    destruct (decide _); split; intros H; done. }
  assert (Hne : (0 < length starts)%nat) by (apply (Hdom 0%nat); lia).
  split; [by destruct starts; [simpl in Hne; lia|]|]. split.
  - intros i a b. rewrite Hlk, Hstop. unfold clip1.
    destruct (decide _); intros; simplify_eq. lia.
  - intros HTS. rewrite last_lookup, <- Hlen.
    set (n := length starts) in *.
    assert (Hi : (Nat.pred n < n)%nat) by lia.
    apply Hdom in Hi. rewrite Hstop, decide_True by done. f_equal.
    pose proof (Hdom n) as H2.
    assert (¬ 0 + n * T < L) by (rewrite <- H2; lia).
    unfold clip1. replace (Z.of_nat (Nat.pred n)) with (n - 1) in * by lia. nia.
Qed.

Lemma get_windows_bounds_witness :
  ∃ starts stops : list Z,
    _get_windows 0 10 3 3 = Ok (starts, stops)
    ∧ starts ≠ []
    ∧ windows_within 10 3 starts stops
    ∧ (3 ≤ 3 → last stops = Some 10).
Proof. apply (get_windows_bounds 10 3 3); lia. Defined.

(** ** Cumulative offsets *)

Lemma cumsum_from_length acc a : length (cumsum_from acc a) = length a.
Proof. revert acc; induction a; intros; simpl; auto. Qed.

Lemma cumsum_from_lookup acc a (i : nat) :
  (i < length a)%nat →
  cumsum_from acc a !! i = Some (acc + sumZ (take (S i) a)).
Proof.
  revert acc i. induction a as [|x a IH]; intros acc i Hi; simpl in *; [lia|].
  destruct i as [|i]; simpl.
  - f_equal. destruct a; simpl; lia.
  - rewrite IH by lia. f_equal. simpl. lia.
Qed.

Lemma start_offsets_length sizes :
  length (_sizes_to_start_offsets sizes) = S (length sizes).
Proof.
  unfold _sizes_to_start_offsets, np_cumsum, np_insert0.
  by rewrite cumsum_from_length.
Qed.

Lemma start_offsets_lookup sizes (c : nat) :
  (c ≤ length sizes)%nat →
  _sizes_to_start_offsets sizes !! c = Some (sumZ (take c sizes)).
Proof.
  intros Hc. unfold _sizes_to_start_offsets, np_cumsum, np_insert0.
  rewrite cumsum_from_lookup by (simpl; lia). f_equal.
Qed.

Lemma start_offsets_cons sizes :
  _sizes_to_start_offsets sizes = 0 :: cumsum_from 0 sizes.
Proof. reflexivity. Qed.

Lemma sumZ_app l k : sumZ (l ++ k) = sumZ l + sumZ k.
Proof. induction l; simpl; lia. Qed.

Lemma sumZ_nonneg l : Forall (λ c, 0 ≤ c) l → 0 ≤ sumZ l.
Proof. induction 1; simpl; lia. Qed.

(** The offsets of non-negative sizes ascend. *)
Lemma sumZ_take_mono sizes (i j : nat) :
  Forall (λ c, 0 ≤ c) sizes → (i ≤ j)%nat →
  sumZ (take i sizes) ≤ sumZ (take j sizes).
Proof.
  intros Hpos Hij.
  replace j with (i + (j - i))%nat by lia.
  rewrite <- take_take_drop, sumZ_app.
  pose proof (sumZ_nonneg (take (j - i) (drop i sizes))
                (Forall_take _ _ _ (Forall_drop _ _ _ Hpos))). lia.
Qed.

(** The offsets of positive sizes ascend strictly. *)
Lemma sumZ_take_strict sizes (i j : nat) :
  Forall (λ c, 0 < c) sizes → (i < j ≤ length sizes)%nat →
  sumZ (take i sizes) < sumZ (take j sizes).
Proof.
  intros Hpos [Hij Hj].
  assert (Hnn : Forall (λ c, 0 ≤ c) sizes) by (eapply Forall_impl; eauto; simpl; lia).
  apply Z.lt_le_trans with (sumZ (take (S i) sizes)); [|by apply sumZ_take_mono; [|lia]].
  destruct (lookup_lt_is_Some_2 sizes i ltac:(lia)) as [x Hx].
  rewrite (take_S_r _ _ _ Hx), sumZ_app. simpl.
  rewrite Forall_lookup in Hpos. specialize (Hpos _ _ Hx). simpl in Hpos. lia.
Qed.

Lemma sumZ_take_all sizes : sumZ (take (length sizes) sizes) = sumZ sizes.
Proof. by rewrite firstn_all. Qed.

(** ** Searching the offsets *)

Lemma searchsorted_right1_range a v :
  0 ≤ searchsorted_right1 a v ≤ len a.
Proof.
  unfold len. induction a as [|x a IH]; simpl; [lia|].
  destruct (x <=? v); lia.
Qed.

Lemma searchsorted_right1_cons_le x a v :
  x ≤ v → searchsorted_right1 (x :: a) v = 1 + searchsorted_right1 a v.
Proof. intros H. cbn [searchsorted_right1]. by destruct (Z.leb_spec x v); [|lia]. Qed.

(** Everything before the insertion point is at most [v]. *)
Lemma searchsorted_right1_before a v (i : nat) x :
  i < searchsorted_right1 a v → a !! i = Some x → x ≤ v.
Proof.
  revert i. induction a as [|y a IH]; intros i Hi Hx; simpl in *; [done|].
  destruct (Z.leb_spec y v); [|lia].
  destruct i as [|i]; simpl in *; [by simplify_eq|].
  apply (IH i); [lia|done].
Qed.

(** In an ascending array everything from the insertion point on is
    greater than [v]. *)
Lemma searchsorted_right1_after a v (i : nat) x :
  nondecreasing a →
  searchsorted_right1 a v ≤ i → a !! i = Some x → v < x.
Proof.
  revert i. induction a as [|y a IH]; intros i Hmono Hi Hx; simpl in *; [done|].
  destruct (Z.leb_spec y v) as [Hy|Hy].
  - destruct i as [|i]; simpl in *.
    + pose proof (searchsorted_right1_range a v). lia.
    + apply (IH i); [|lia|done].
      intros i' j' a' b' Hij Ha Hb. by apply (Hmono (S i') (S j')); [lia|..].
  - pose proof (Hmono 0%nat i y x ltac:(lia) eq_refl Hx). lia.
Qed.

Lemma start_offsets_nondecreasing sizes :
  Forall (λ c, 0 ≤ c) sizes → nondecreasing (_sizes_to_start_offsets sizes).
Proof.
  intros Hnn i j a b Hij Ha Hb.
  assert (Hj : (j < S (length sizes))%nat).
  { rewrite <- start_offsets_length. apply lookup_lt_is_Some. eauto. }
  rewrite start_offsets_lookup in Ha, Hb by lia. simplify_eq.
  by apply sumZ_take_mono.
Qed.

(** ** Indexing *)

Lemma py_index_ok {A} (l : list A) i :
  - len l ≤ i < len l →
  ∃ a, py_index l i = Ok a ∧ l !! wrap_index l i = Some a.
Proof.
  intros Hi. unfold py_index, wrap_index.
  set (j := if i <? 0 then i + len l else i).
  assert (0 ≤ j < len l) as Hj by (subst j; destruct (Z.ltb_spec i 0); lia).
  destruct (Z.ltb_spec j 0); [lia|].
  destruct (lookup_lt_is_Some_2 l (Z.to_nat j)) as [a Ha]; [unfold len in *; lia|].
  rewrite Ha. eauto.
Qed.

Lemma py_index_nonneg {A} (l : list A) (i : nat) a :
  l !! i = Some a → py_index l i = Ok a.
Proof.
  intros Ha. unfold py_index.
  destruct (Z.ltb_spec i 0); [lia|]. destruct (Z.ltb_spec i 0); [lia|].
  by rewrite Nat2Z.id, Ha.
Qed.

Lemma py_index_Ok_inv {A} (l : list A) i a :
  py_index l i = Ok a → - len l ≤ i < len l ∧ l !! wrap_index l i = Some a.
Proof.
  unfold py_index, wrap_index.
  set (j := if i <? 0 then i + len l else i).
  destruct (Z.ltb_spec j 0); [done|].
  destruct (l !! Z.to_nat j) eqn:Hj; [|done]. intros; simplify_eq.
  split; [|done]. apply lookup_lt_Some in Hj.
  unfold len in *. subst j. destruct (Z.ltb_spec i 0); lia.
Qed.

Lemma py_index_out_of_range {A} (l : list A) i :
  len l ≤ i → py_index l i = Raise IndexError.
Proof.
  intros Hi. unfold py_index. pose proof (len_nonneg l).
  destruct (Z.ltb_spec i 0); [lia|]. destruct (Z.ltb_spec i 0); [lia|].
  rewrite lookup_ge_None_2; [done|]. unfold len in *. lia.
Qed.

Lemma comprehension_ok {A B} (f : A → result B) (g : A → B) l :
  Forall (λ a, f a = Ok (g a)) l → comprehension f l = Ok (g <$> l).
Proof.
  induction 1 as [|a l Ha _ IH]; simpl; [done|]. by rewrite Ha, IH.
Qed.

Lemma comprehension_length {A B} (f : A → result B) l out :
  comprehension f l = Ok out → length out = length l.
Proof.
  revert out. induction l as [|a l IH]; intros out; simpl.
  - by intros [= <-].
  - destruct (f a) as [b|]; simpl; [|done].
    destruct (comprehension f l) as [bs|]; simpl; [|done].
    intros [= <-]. simpl. by rewrite (IH bs).
Qed.

Lemma comprehension_lookup {A B} (f : A → result B) l out (i : nat) a :
  comprehension f l = Ok out → l !! i = Some a →
  ∃ b, f a = Ok b ∧ out !! i = Some b.
Proof.
  revert out i. induction l as [|a' l IH]; intros out i; simpl; [done|].
  destruct (f a') as [b|] eqn:Hb; simpl; [|done].
  destruct (comprehension f l) as [bs|]; simpl; [|done].
  intros [= <-] Hi. destruct i as [|i]; simpl in *.
  - simplify_eq. eauto.
  - by apply IH.
Qed.

Lemma np_binop_same_length f a b :
  length a = length b → np_binop f a b = Ok (zip_with f a b).
Proof.
  intros H. unfold np_binop, len. rewrite H.
  by destruct (Z.eqb_spec (length b) (length b)).
Qed.

(** ** The chunk mapper *)

Lemma comprehension_total {A B} (f : A → result B) l :
  Forall (λ a, ∃ b, f a = Ok b) l → ∃ out, comprehension f l = Ok out.
Proof.
  induction 1 as [|a l [b Hb] _ [out IH]]; simpl; [eauto|].
  rewrite Hb, IH. simpl. eauto.
Qed.

Lemma chunk_numbers_lookup chunks ws (i : nat) w :
  ws !! i = Some w →
  chunk_numbers_of chunks ws !! i
  = Some (searchsorted_right1 (_sizes_to_start_offsets chunks) w - 1).
Proof.
  intros Hw. unfold chunk_numbers_of, np_add_scalar, np_searchsorted_right.
  by rewrite !list_lookup_fmap, Hw.
Qed.

Lemma chunk_numbers_length chunks ws :
  length (chunk_numbers_of chunks ws) = length ws.
Proof.
  unfold chunk_numbers_of, np_add_scalar, np_searchsorted_right.
  by rewrite !length_fmap.
Qed.

(** Every chunk number is a valid index into the offsets: it lies between
    -1 (the last offset, by wrap-around) and the number of chunks. *)
Lemma chunk_numbers_range chunks ws :
  Forall (λ c, -1 ≤ c ≤ len chunks) (chunk_numbers_of chunks ws).
Proof.
  apply Forall_lookup. intros i c Hc.
  assert (is_Some (ws !! i)) as [w Hw].
  { apply lookup_lt_is_Some. rewrite <- (chunk_numbers_length chunks).
    apply lookup_lt_is_Some. eauto. }
  rewrite (chunk_numbers_lookup _ _ _ _ Hw) in Hc. simplify_eq.
  pose proof (searchsorted_right1_range (_sizes_to_start_offsets chunks) w) as Hr.
  unfold len in *. rewrite start_offsets_length in Hr. lia.
Qed.

(** [_get_chunked_windows] never raises. *)
Lemma get_chunked_windows_total chunks total ws we :
  ∃ starts_of_chunks,
    np_take (_sizes_to_start_offsets chunks) (chunk_numbers_of chunks ws)
    = Ok starts_of_chunks
    ∧ length starts_of_chunks = length ws
    ∧ _get_chunked_windows chunks total ws we
      = Ok (zip_with Z.sub ws starts_of_chunks,
            (np_unique_counts (chunk_numbers_of chunks ws)).2).
Proof.
  destruct (comprehension_total (py_index (_sizes_to_start_offsets chunks))
              (chunk_numbers_of chunks ws)) as [out Hout].
  { eapply Forall_impl; [apply chunk_numbers_range|]. simpl. intros c Hc.
    destruct (py_index_ok (_sizes_to_start_offsets chunks) c) as (a & Ha & _); [|eauto].
    unfold len in *. rewrite start_offsets_length. lia. }
  exists out.
  assert (Hlen : length out = length ws).
  { apply comprehension_length in Hout. by rewrite Hout, chunk_numbers_length. }
  repeat split; [done..|].
  unfold _get_chunked_windows. unfold np_take in Hout. unfold np_take.
  rewrite Hout. simpl. unfold np_sub. rewrite np_binop_same_length by done.
  done.
Qed.

(** C1. For chunk lengths that are non-negative (in particular, positive)
    and sum to [total], and window starts in [0, total),
    [_get_chunked_windows] returns without error; the chunk number it
    assigns to a window is a chunk index [c] whose cumulative start offset
    is at most the window start, no later offset is, and the relative
    start it returns is the window start minus the offset of chunk [c]. *)
Theorem chunked_windows_assignment (chunks : list Z) (total : Z) (ws we : list Z) :
  Forall (λ c, 0 ≤ c) chunks →
  total = sumZ chunks →
  Forall (λ w, 0 ≤ w < total) ws →
  ∃ rel wpc : list Z,
    _get_chunked_windows chunks total ws we = Ok (rel, wpc)
    ∧ ∀ (i : nat) (w : Z), ws !! i = Some w →
        ∃ (c : nat) (off : Z),
          chunk_numbers_of chunks ws !! i = Some (Z.of_nat c)
          ∧ (c < length chunks)%nat
          ∧ _sizes_to_start_offsets chunks !! c = Some off
          ∧ off = sumZ (take c chunks)
          ∧ off ≤ w
          ∧ (∀ (c' : nat) (off' : Z),
               _sizes_to_start_offsets chunks !! c' = Some off' → off' ≤ w →
               (c' ≤ c)%nat)
          ∧ rel !! i = Some (w - off).
Proof.
  intros Hnn Htotal Hws.
  destruct (get_chunked_windows_total chunks total ws we) as (taken & Htake & Hlen & ->).
  eexists _, _. split; [done|]. intros i w Hw.
  pose proof (chunk_numbers_lookup chunks _ _ _ Hw) as Hc.
  set (offs := _sizes_to_start_offsets chunks) in *.
  set (r := searchsorted_right1 offs w) in *.
  rewrite Forall_lookup in Hws. specialize (Hws _ _ Hw). simpl in Hws.
  pose proof (searchsorted_right1_range offs w) as Hr. fold r in Hr.
  unfold len in Hr. subst offs. rewrite start_offsets_length in Hr.
  set (offs := _sizes_to_start_offsets chunks) in *.
  assert (1 ≤ r) as Hr1.
  { subst r offs. rewrite start_offsets_cons, searchsorted_right1_cons_le by lia.
    pose proof (searchsorted_right1_range (cumsum_from 0 chunks) w). lia. }
  destruct (comprehension_lookup _ _ _ _ _ Htake Hc) as (off & Hoff & Htk).
  apply py_index_Ok_inv in Hoff as [_ Hoff]. unfold wrap_index in Hoff.
  destruct (Z.ltb_spec (r - 1) 0); [lia|].
  exists (Z.to_nat (r - 1)), off.
  assert (Hoff' : off = sumZ (take (Z.to_nat (r - 1)) chunks)).
  { subst offs. rewrite start_offsets_lookup in Hoff by lia. by simplify_eq. }
  assert (Hle : off ≤ w).
  { apply (searchsorted_right1_before offs w (Z.to_nat (r - 1))); [fold r; lia|done]. }
  repeat split.
  - rewrite Hc. f_equal. lia.
  - destruct (decide (Z.to_nat (r - 1) < length chunks)%nat); [done|].
    replace (Z.to_nat (r - 1)) with (length chunks) in Hoff' by lia.
    rewrite sumZ_take_all in Hoff'. lia.
  - done.
  - done.
  - done.
  - intros c' off' Hc' Hle'.
    destruct (decide (c' ≤ Z.to_nat (r - 1))%nat); [done|].
    pose proof (searchsorted_right1_after offs w c' off'
                  (start_offsets_nondecreasing _ Hnn)) as Hgt.
    fold r in Hgt. specialize (Hgt ltac:(lia) Hc'). lia.
  - rewrite lookup_zip_with, Hw, Htk. done.
Qed.

Lemma chunked_windows_assignment_witness :
  ∃ rel wpc : list Z,
    _get_chunked_windows [4; 3; 3] 10 [0; 3; 6; 9] [3; 6; 9; 10] = Ok (rel, wpc)
    ∧ ∀ (i : nat) (w : Z), [0; 3; 6; 9] !! i = Some w →
        ∃ (c : nat) (off : Z),
          chunk_numbers_of [4; 3; 3] [0; 3; 6; 9] !! i = Some (Z.of_nat c)
          ∧ (c < length [4; 3; 3])%nat
          ∧ _sizes_to_start_offsets [4; 3; 3] !! c = Some off
          ∧ off = sumZ (take c [4; 3; 3])
          ∧ off ≤ w
          ∧ (∀ (c' : nat) (off' : Z),
               _sizes_to_start_offsets [4; 3; 3] !! c' = Some off' → off' ≤ w →
               (c' ≤ c)%nat)
          ∧ rel !! i = Some (w - off).
Proof.
  apply (chunked_windows_assignment [4; 3; 3] 10 [0; 3; 6; 9] [3; 6; 9; 10]).
  - repeat constructor; lia.
  - reflexivity.
  - repeat constructor; lia.
Defined.

(** ** Counting the windows of each chunk *)

(** Filing one more value adds one to the total of the counts. *)
Lemma unique_insert_counts v t :
  sumZ (unique_insert v t).*2 = 1 + sumZ t.*2.
Proof.
  induction t as [|[u c] t IH]; csimpl; [done|].
  destruct (v <? u); [csimpl; lia|]. destruct (v =? u); csimpl; lia.
Qed.

Lemma unique_table_cons v a :
  unique_table (v :: a) = unique_insert v (unique_table a).
Proof. reflexivity. Qed.

Lemma unique_table_counts_sum a : sumZ (unique_table a).*2 = len a.
Proof.
  unfold len. induction a as [|v a IH]; [done|].
  rewrite unique_table_cons, unique_insert_counts. simpl length. lia.
Qed.

Lemma unique_insert_keys v t k :
  k ∈ (unique_insert v t).*1 ↔ k = v ∨ k ∈ t.*1.
Proof.
  induction t as [|[u c] t IH]; csimpl.
  - rewrite elem_of_cons. tauto.
  - destruct (Z.ltb_spec v u); [csimpl; rewrite !elem_of_cons; tauto|].
    destruct (Z.eqb_spec v u) as [->|]; csimpl; rewrite !elem_of_cons.
    + tauto.
    + rewrite IH. tauto.
Qed.

Lemma unique_table_keys a k : k ∈ (unique_table a).*1 ↔ k ∈ a.
Proof.
  induction a as [|v a IH]; [done|].
  rewrite unique_table_cons, unique_insert_keys, elem_of_cons. tauto.
Qed.

Lemma unique_insert_sorted v t :
  StronglySorted Z.lt t.*1 → StronglySorted Z.lt (unique_insert v t).*1.
Proof.
  induction t as [|[u c] t IH]; csimpl; intros Hs.
  - repeat constructor.
  - apply StronglySorted_inv in Hs as [Hs Hall]. csimpl in *.
    destruct (Z.ltb_spec v u) as [Hlt|Hge].
    + csimpl. constructor; [by constructor|].
      constructor; [done|]. eapply Forall_impl; [exact Hall|]. csimpl. lia.
    + destruct (Z.eqb_spec v u) as [->|Hne]; csimpl.
      * by constructor.
      * constructor; [by apply IH|].
        apply Forall_forall. intros k Hk. apply unique_insert_keys in Hk as [->|Hk].
        -- lia.
        -- rewrite Forall_forall in Hall. by apply Hall.
Qed.

Lemma unique_table_sorted a : StronglySorted Z.lt (unique_table a).*1.
Proof.
  induction a as [|v a IH]; [constructor|].
  rewrite unique_table_cons. by apply unique_insert_sorted.
Qed.

(** Filing [v] adds one to the count of [v] and leaves the others alone. *)
Lemma table_count_insert v t u :
  table_count (unique_insert v t) u
  = (if decide (v = u) then 1 else 0) + table_count t u.
Proof.
  induction t as [|[k c] t IH]; csimpl.
  - repeat destruct (decide _); lia.
  - destruct (Z.ltb_spec v k); [csimpl; repeat destruct (decide _); lia|].
    destruct (Z.eqb_spec v k); csimpl; [repeat destruct (decide _); lia|].
    rewrite IH. repeat destruct (decide _); lia.
Qed.

Lemma table_count_unique_table a u :
  table_count (unique_table a) u = occurrences u a.
Proof.
  induction a as [|v a IH]; [done|].
  rewrite unique_table_cons, table_count_insert, IH. done.
Qed.

Lemma table_count_absent t u : u ∉ t.*1 → table_count t u = 0.
Proof.
  induction t as [|[k c] t IH]; csimpl; [done|].
  rewrite not_elem_of_cons. intros [Hne Hnin].
  rewrite decide_False by done. rewrite IH by done. lia.
Qed.

(** In a table with distinct keys each entry holds its own count. *)
Lemma table_count_entries t :
  StronglySorted Z.lt t.*1 → t.*2 = table_count t <$> t.*1.
Proof.
  induction t as [|[k c] t IH]; csimpl; [done|]. intros Hs.
  apply StronglySorted_inv in Hs as [Hs Hall].
  rewrite decide_True by done. f_equal.
  - rewrite table_count_absent; [lia|].
    intros Hin. rewrite Forall_forall in Hall. specialize (Hall _ Hin). lia.
  - rewrite IH by done. apply list_fmap_ext. intros i u Hu. csimpl.
    rewrite decide_False; [lia|].
    rewrite Forall_forall in Hall.
    specialize (Hall u (list_elem_of_lookup_2 _ _ _ Hu)). lia.
Qed.

Lemma occurrences_pos u a : u ∈ a → 1 ≤ occurrences u a.
Proof.
  assert (Hnn : ∀ l, 0 ≤ occurrences u l).
  { induction l; csimpl; [lia|]. destruct (decide _); lia. }
  induction a as [|v a IH]; csimpl; [by intros ?%elem_of_nil|].
  rewrite elem_of_cons. specialize (Hnn a).
  destruct (decide (v = u)); [lia|]. intros [->|Hin]; [done|].
  specialize (IH Hin). lia.
Qed.

(** The counts of [np.unique]: one for each value that occurs, in ascending
    order of the values, each at least 1, adding up to the length. *)
Lemma np_unique_counts_spec (a : list Z) :
  StronglySorted Z.lt (np_unique_counts a).1
  ∧ (∀ c, c ∈ (np_unique_counts a).1 ↔ c ∈ a)
  ∧ (np_unique_counts a).2 = (λ c, occurrences c a) <$> (np_unique_counts a).1
  ∧ Forall (λ k, 1 ≤ k) (np_unique_counts a).2
  ∧ sumZ (np_unique_counts a).2 = len a.
Proof.
  unfold np_unique_counts. cbn [fst snd].
  assert (Hwpc : (unique_table a).*2
                 = (λ c, occurrences c a) <$> (unique_table a).*1).
  { rewrite table_count_entries by apply unique_table_sorted.
    apply list_fmap_ext. intros i u _. apply table_count_unique_table. }
  split; [apply unique_table_sorted|].
  split; [apply unique_table_keys|].
  split; [done|]. split.
  - rewrite Hwpc. apply Forall_fmap, Forall_forall. intros u Hu. csimpl.
    by apply occurrences_pos, unique_table_keys.
  - apply unique_table_counts_sum.
Qed.

(** The chunk of a window start inside the array. *)
Lemma chunk_of_window_start (chunks : list Z) (w : Z) :
  Forall (λ c, 0 ≤ c) chunks →
  0 ≤ w → w < sumZ chunks →
  ∃ c : nat,
    searchsorted_right1 (_sizes_to_start_offsets chunks) w - 1 = c
    ∧ (c < length chunks)%nat
    ∧ sumZ (take c chunks) ≤ w
    ∧ w < sumZ (take (S c) chunks).
Proof.
  intros Hnn Hw0 Hw1.
  set (offs := _sizes_to_start_offsets chunks).
  set (r := searchsorted_right1 offs w).
  pose proof (searchsorted_right1_range offs w) as Hr. fold r in Hr.
  unfold len in Hr. unfold offs in Hr. rewrite start_offsets_length in Hr.
  fold offs in Hr.
  assert (1 ≤ r) as Hr1.
  { subst r offs. rewrite start_offsets_cons, searchsorted_right1_cons_le by lia.
    pose proof (searchsorted_right1_range (cumsum_from 0 chunks) w). lia. }
  assert (Hbefore : sumZ (take (Z.to_nat (r - 1)) chunks) ≤ w).
  { apply (searchsorted_right1_before offs w (Z.to_nat (r - 1))); [fold r; lia|].
    apply start_offsets_lookup. lia. }
  assert (Hc : (Z.to_nat (r - 1) < length chunks)%nat).
  { destruct (decide (Z.to_nat (r - 1) < length chunks)%nat); [done|].
    replace (Z.to_nat (r - 1)) with (length chunks) in Hbefore by lia.
    rewrite sumZ_take_all in Hbefore. lia. }
  exists (Z.to_nat (r - 1)). split; [lia|]. split; [done|]. split; [done|].
  apply (searchsorted_right1_after offs w (S (Z.to_nat (r - 1)))).
  - by apply start_offsets_nondecreasing.
  - fold r. lia.
  - apply start_offsets_lookup. lia.
Qed.

(** A window start falls in one chunk only. *)
Lemma in_chunk_unique (chunks : list Z) (c c' : nat) (w : Z) :
  Forall (λ x, 0 ≤ x) chunks →
  in_chunk chunks c w → in_chunk chunks c' w → c = c'.
Proof.
  intros Hnn (Hc & Hlo & Hhi) (Hc' & Hlo' & Hhi').
  destruct (decide (c < c')%nat) as [Hlt|Hge].
  - pose proof (sumZ_take_mono chunks (S c) c' Hnn ltac:(lia)). lia.
  - destruct (decide (c' < c)%nat) as [Hgt|Hle]; [|lia].
    pose proof (sumZ_take_mono chunks (S c') c Hnn ltac:(lia)). lia.
Qed.

(** The chunk number that the search assigns to a window start inside the
    array is [c] exactly when the start falls in chunk [c]. *)
Lemma chunk_number_in_chunk (chunks : list Z) (c : nat) (w : Z) :
  Forall (λ x, 0 ≤ x) chunks →
  0 ≤ w → w < sumZ chunks →
  searchsorted_right1 (_sizes_to_start_offsets chunks) w - 1 = c
  ↔ in_chunk chunks c w.
Proof.
  intros Hnn Hw0 Hw1.
  destruct (chunk_of_window_start chunks w Hnn Hw0 Hw1)
    as (c0 & Hc0 & Hlt & Hlo & Hhi).
  assert (Hin0 : in_chunk chunks c0 w) by done.
  split.
  - intros Hc. assert (c = c0) as -> by lia. done.
  - intros Hin. rewrite (in_chunk_unique chunks c c0 w Hnn Hin Hin0). done.
Qed.

(** The occurrences of a chunk number among the chunk numbers are the
    windows that fall in that chunk. *)
Lemma occurrences_windows_in_chunk (chunks ws : list Z) (c : nat) :
  Forall (λ x, 0 ≤ x) chunks →
  Forall (λ w, 0 ≤ w ∧ w < sumZ chunks) ws →
  occurrences (Z.of_nat c) (chunk_numbers_of chunks ws)
  = windows_in_chunk chunks c ws.
Proof.
  intros Hnn Hws. unfold windows_in_chunk, chunk_numbers_of,
    np_add_scalar, np_searchsorted_right, len.
  induction Hws as [|w ws [Hw0 Hw1] _ IH]; [done|].
  rewrite !fmap_cons. cbn [occurrences]. rewrite IH. clear IH.
  pose proof (chunk_number_in_chunk chunks c w Hnn Hw0 Hw1) as Hiff.
  destruct (chunk_of_window_start chunks w Hnn Hw0 Hw1)
    as (c0 & Hc0 & Hlt & Hlo0 & Hhi0).
  assert (Hin0 : in_chunk chunks c0 w) by done.
  destruct (decide (searchsorted_right1 (_sizes_to_start_offsets chunks) w + -1
                    = Z.of_nat c)) as [Heq|Hne].
  - assert (Hin : in_chunk chunks c w) by (apply Hiff; lia).
    destruct Hin as (_ & Hlo & Hhi).
    rewrite filter_cons_True by done. simpl. lia.
  - rewrite filter_cons_False; [lia|].
    intros [Hlo Hhi]. apply Hne.
    assert (c = c0) as ->; [|lia].
    apply (in_chunk_unique chunks c c0 w Hnn).
    + split; [|done]. destruct (decide (c < length chunks)%nat); [done|].
      rewrite !take_ge in Hlo, Hhi by lia. lia.
    + done.
Qed.

Lemma sorted_to_nat (l : list Z) :
  StronglySorted Z.lt l → Forall (λ x, 0 ≤ x) l →
  StronglySorted lt (Z.to_nat <$> l).
Proof.
  induction 1 as [|x l Hs IH Hall]; intros Hnn; csimpl; [constructor|].
  apply Forall_cons in Hnn as [Hx Hnn].
  constructor; [by apply IH|].
  apply Forall_fmap, Forall_forall. intros y Hy. simpl.
  rewrite Forall_forall in Hall, Hnn.
  specialize (Hall y Hy). specialize (Hnn y Hy). simpl in *. lia.
Qed.

(** C6. For every layout of non-negative chunk lengths and every set of
    windows that start inside the array, [_get_chunked_windows] returns
    without error, and its [windows_per_chunk] lists, in ascending order
    of chunk index, the number of windows that fall in the chunk, for
    exactly those chunks in which at least one window falls: a chunk with
    no window has no entry, every entry is at least 1, and the entries
    sum to the number of windows.  A window falls in the chunk whose
    range of positions, from its start offset to the next chunk's start
    offset, holds the window start. *)
Theorem chunked_windows_counts (chunks : list Z) (total : Z) (ws we : list Z) :
  Forall (λ c, 0 ≤ c) chunks →
  Forall (λ w, 0 ≤ w ∧ w < sumZ chunks) ws →
  ∃ (rel wpc : list Z) (present : list nat),
    _get_chunked_windows chunks total ws we = Ok (rel, wpc)
    ∧ StronglySorted lt present
    ∧ (∀ c : nat, c ∈ present ↔ ∃ w, w ∈ ws ∧ in_chunk chunks c w)
    ∧ wpc = (λ c, windows_in_chunk chunks c ws) <$> present
    ∧ length wpc = length present
    ∧ Forall (λ k, 1 ≤ k) wpc
    ∧ sumZ wpc = len ws.
Proof.
  intros Hnn Hws.
  destruct (get_chunked_windows_total chunks total ws we) as (taken & _ & _ & ->).
  set (cn := chunk_numbers_of chunks ws).
  destruct (np_unique_counts_spec cn) as (Hsorted & Hkeys & Hcounts & Hpos & Hsum).
  set (presentZ := (np_unique_counts cn).1) in *.
  (* every chunk number is the index of the chunk the window falls in *)
  assert (Hcn : ∀ z, z ∈ cn ↔ ∃ (c : nat) (w : Z),
                               z = Z.of_nat c ∧ w ∈ ws ∧ in_chunk chunks c w).
  { intros z. split.
    - intros Hz. apply list_elem_of_lookup in Hz as [i Hi].
      assert (is_Some (ws !! i)) as [w Hw].
      { apply lookup_lt_is_Some. rewrite <- (chunk_numbers_length chunks).
        by eapply lookup_lt_Some. }
      unfold cn in Hi. rewrite (chunk_numbers_lookup _ _ _ _ Hw) in Hi.
      rewrite Forall_lookup in Hws. destruct (Hws _ _ Hw) as [Hw0 Hw1].
      destruct (chunk_of_window_start chunks w Hnn Hw0 Hw1)
        as (c & Hc & Hlt & Hlo & Hhi).
      exists c, w. split; [by simplify_eq|].
      split; [by eapply list_elem_of_lookup_2|done].
    - intros (c & w & -> & Hw & Hin).
      apply list_elem_of_lookup in Hw as [i Hw].
      rewrite Forall_lookup in Hws. destruct (Hws _ _ Hw) as [Hw0 Hw1].
      apply (list_elem_of_lookup_2 _ i). unfold cn.
      rewrite (chunk_numbers_lookup _ _ _ _ Hw). f_equal.
      by apply chunk_number_in_chunk. }
  assert (HpresentZ : Forall (λ z, 0 ≤ z) presentZ).
  { apply Forall_forall. intros z Hz. apply Hkeys, Hcn in Hz as (c & _ & -> & _). lia. }
  exists (zip_with Z.sub ws taken), (np_unique_counts cn).2, (Z.to_nat <$> presentZ).
  split; [done|]. split; [by apply sorted_to_nat|]. split.
  { intros c. rewrite list_elem_of_fmap. split.
    - intros (z & -> & Hz). pose proof Hz as Hz'.
      apply Hkeys, Hcn in Hz as (c & w & -> & Hw & Hin).
      rewrite Nat2Z.id. eauto.
    - intros (w & Hw & Hin). exists (Z.of_nat c). split; [lia|].
      apply Hkeys, Hcn. eauto. }
  split.
  { rewrite Hcounts, <- list_fmap_compose. apply list_fmap_ext.
    intros i z Hz. simpl.
    rewrite Forall_lookup in HpresentZ. specialize (HpresentZ _ _ Hz). simpl in HpresentZ.
    rewrite <- (occurrences_windows_in_chunk chunks ws) by done.
    by rewrite Z2Nat.id. }
  split; [by rewrite Hcounts, !length_fmap|].
  split; [done|].
  rewrite Hsum. unfold len, cn. by rewrite chunk_numbers_length.
Qed.

Lemma chunked_windows_counts_witness :
  ∃ (rel wpc : list Z) (present : list nat),
    _get_chunked_windows [3; 3; 3] 9 [0; 7] [3; 9] = Ok (rel, wpc)
    ∧ StronglySorted lt present
    ∧ (∀ c : nat, c ∈ present ↔ ∃ w, w ∈ [0; 7] ∧ in_chunk [3; 3; 3] c w)
    ∧ wpc = (λ c, windows_in_chunk [3; 3; 3] c [0; 7]) <$> present
    ∧ length wpc = length present
    ∧ Forall (λ k, 1 ≤ k) wpc
    ∧ sumZ wpc = len [0; 7].
Proof.
  apply (chunked_windows_counts [3; 3; 3] 9 [0; 7] [3; 9]).
  - repeat constructor; lia.
  - repeat constructor; vm_compute; congruence.
Defined.

(** ** The halo depth and the rebalanced chunks *)

Lemma foldl_max_spec x a :
  x ≤ foldl Z.max x a
  ∧ Forall (λ y, y ≤ foldl Z.max x a) a
  ∧ foldl Z.max x a ∈ x :: a.
Proof.
  revert x. induction a as [|y a IH]; intros x; simpl.
  - split; [lia|]. split; [constructor|by left].
  - destruct (IH (Z.max x y)) as (H1 & H2 & H3).
    split; [lia|]. split; [constructor; [lia|done]|].
    apply elem_of_cons in H3 as [H3|H3].
    + rewrite H3. destruct (Z.max_spec x y) as [[_ ->]|[_ ->]].
      * right; left.
      * left.
    + by do 2 right.
Qed.

Lemma np_max_spec a :
  a ≠ [] → ∃ m, np_max a = Ok m ∧ Forall (λ y, y ≤ m) a ∧ m ∈ a.
Proof.
  destruct a as [|x a]; [done|]. intros _. simpl.
  destruct (foldl_max_spec x a) as (H1 & H2 & H3).
  eexists. split; [done|]. split; [by constructor|done].
Qed.

Lemma foldl_min_spec x a :
  foldl Z.min x a ≤ x
  ∧ Forall (λ y, foldl Z.min x a ≤ y) a
  ∧ foldl Z.min x a ∈ x :: a.
Proof.
  revert x. induction a as [|y a IH]; intros x; simpl.
  - split; [lia|]. split; [constructor|by left].
  - destruct (IH (Z.min x y)) as (H1 & H2 & H3).
    split; [lia|]. split; [constructor; [lia|done]|].
    apply elem_of_cons in H3 as [H3|H3].
    + rewrite H3. destruct (Z.min_spec x y) as [[_ ->]|[_ ->]].
      * left.
      * right; left.
    + by do 2 right.
Qed.

Lemma np_min_spec a :
  a ≠ [] → ∃ m, np_min a = Ok m ∧ Forall (λ y, m ≤ y) a ∧ m ∈ a.
Proof.
  destruct a as [|x a]; [done|]. intros _. simpl.
  destruct (foldl_min_spec x a) as (H1 & H2 & H3).
  eexists. split; [done|]. split; [by constructor|done].
Qed.

(** The depth that [window_statistic] computes is the greatest window
    length. *)
Lemma depth_is_max ws we :
  ws ≠ [] → length ws = length we →
  ∃ depth,
    (window_lengths ← np_sub we ws; np_max window_lengths) = Ok depth
    ∧ np_sub we ws = Ok (zip_with Z.sub we ws)
    ∧ np_max (zip_with Z.sub we ws) = Ok depth
    ∧ is_max_window_length depth ws we.
Proof.
  intros Hne Hlen. unfold np_sub. rewrite np_binop_same_length by done.
  destruct (np_max_spec (zip_with Z.sub we ws)) as (m & Hm & Hall & Hin).
  { destruct ws, we; simpl in *; done. }
  exists m. split; [done|]. split; [done|]. split; [done|]. split.
  - intros i s e Hs He. rewrite Forall_lookup in Hall.
    apply (Hall i). by rewrite lookup_zip_with, He, Hs.
  - apply list_elem_of_lookup in Hin as [i Hi].
    rewrite lookup_zip_with in Hi.
    destruct (we !! i) as [e|] eqn:He; [|done].
    destruct (ws !! i) as [s|] eqn:Hs; [|done].
    simpl in Hi. simplify_eq. eauto 10.
Qed.

(** *** Indexing from the end *)

Lemma len_app {A} (l k : list A) : len (l ++ k) = len l + len k.
Proof. unfold len. rewrite length_app. lia. Qed.

Lemma py_index_from_end {A} (front back : list A) k :
  1 ≤ k ≤ len back → py_index (front ++ back) (- k) = py_index back (- k).
Proof.
  intros Hk. unfold py_index. rewrite len_app.
  pose proof (len_nonneg front) as Hf.
  destruct (Z.ltb_spec (- k) 0); [|lia].
  destruct (Z.ltb_spec (- k + (len front + len back)) 0); [lia|].
  destruct (Z.ltb_spec (- k + len back) 0); [lia|].
  rewrite lookup_app_r by (unfold len in *; lia).
  replace (Z.to_nat (- k + (len front + len back)) - length front)%nat
    with (Z.to_nat (- k + len back)) by (unfold len in *; lia).
  done.
Qed.

Lemma py_index_last {A} (front : list A) b :
  py_index (front ++ [b]) (-1) = Ok b.
Proof. exact (py_index_from_end front [b] 1 ltac:(unfold len; simpl; lia)). Qed.

Lemma py_index_last_but_one {A} (front : list A) a b :
  py_index (front ++ [a; b]) (-2) = Ok a.
Proof. exact (py_index_from_end front [a; b] 2 ltac:(unfold len; simpl; lia)). Qed.

Lemma py_slice_to_drop_last {A} (front back : list A) :
  back ≠ [] →
  py_slice_to (front ++ back) (- len back) = front.
Proof.
  intros Hne. unfold py_slice_to, py_slice, slice_bound. rewrite len_app.
  pose proof (len_nonneg front).
  assert (0 < len back) by (destruct back; [done|unfold len; simpl; lia]).
  destruct (Z.ltb_spec 0 0); [lia|]. destruct (Z.ltb_spec (- len back) 0); [|lia].
  replace (Z.min 0 (len front + len back)) with 0 by lia.
  replace (Z.max 0 (- len back + (len front + len back)) - 0) with (len front) by lia.
  unfold len. rewrite Nat2Z.id. change (Z.to_nat 0) with 0%nat.
  by rewrite drop_0, take_app_length.
Qed.

(** *** The three cases of the rebalancing step *)

Lemma rebalance_keep depth front b :
  depth ≤ b → rebalance_chunks depth (front ++ [b]) = Ok (front ++ [b]).
Proof.
  intros Hb. unfold rebalance_chunks. rewrite py_index_last. simpl.
  by destruct (Z.ltb_spec b depth); [lia|].
Qed.

Lemma rebalance_merge depth front a b :
  b < depth → rebalance_chunks depth (front ++ [a; b]) = Ok (front ++ [a + b]).
Proof.
  intros Hb. unfold rebalance_chunks.
  pose proof (py_index_from_end front [a; b] 1 ltac:(unfold len; simpl; lia)) as H1.
  change (py_index [a; b] (- (1))) with (Ok b) in H1.
  change (- (1)) with (-1) in H1. rewrite H1. simpl.
  destruct (Z.ltb_spec b depth); [|lia].
  rewrite py_index_last_but_one. simpl.
  pose proof (py_slice_to_drop_last front [a; b] ltac:(done)) as Hs.
  change (- len [a; b]) with (-2) in Hs. by rewrite Hs.
Qed.

Lemma rebalance_single_raises depth b :
  b < depth → rebalance_chunks depth [b] = Raise IndexError.
Proof.
  intros Hb. unfold rebalance_chunks.
  change (py_index [b] (-1)) with (Ok b). simpl.
  by destruct (Z.ltb_spec b depth); [|lia].
Qed.

Lemma rebalance_empty_raises depth : rebalance_chunks depth [] = Raise IndexError.
Proof. reflexivity. Qed.

Lemma snoc_inv {X} (l : list X) : l ≠ [] → ∃ front b, l = front ++ [b].
Proof. induction l as [|b front _] using rev_ind; [done|eauto]. Qed.

Section PipelineProperties.
Context {A B K : Type}.
Implicit Types (values : darray A) (statistic : list A → K → result B).
Implicit Types (kwargs : K) (ws we chunks : list Z).

(** What [window_statistic] returns once the depth and the rebalanced
    chunks are known. *)
Lemma window_statistic_plan values statistic ws we kwargs depth new_chunk0 :
  length ws = length we →
  np_max (zip_with Z.sub we ws) = Ok depth →
  rebalance_chunks depth (arr_chunks values) = Ok new_chunk0 →
  ∃ rel wpc,
    _get_chunked_windows new_chunk0 (shape0 values) ws we = Ok (rel, wpc)
    ∧ length rel = length ws
    ∧ window_statistic values statistic ws we kwargs
      = Ok {| mo_values := rechunk values new_chunk0;
              mo_func := blockwise_moving_stat statistic kwargs
                           (_sizes_to_start_offsets wpc)
                           (np_add_scalar rel depth)
                           (zip_with Z.add (np_add_scalar rel depth)
                                           (zip_with Z.sub we ws));
              mo_chunks := wpc;
              mo_depth := depth |}.
Proof.
  intros Hlen Hmax Hreb.
  destruct (get_chunked_windows_total new_chunk0 (shape0 values) ws we)
    as (taken & _ & Htaken & Hcw).
  eexists _, _. split; [exact Hcw|].
  assert (Hrel : length (zip_with Z.sub ws taken) = length ws).
  { rewrite length_zip_with. lia. }
  split; [done|].
  unfold window_statistic, np_sub. rewrite np_binop_same_length by done.
  simpl. rewrite Hmax. simpl. rewrite Hreb. simpl. rewrite Hcw. simpl.
  unfold np_add. rewrite np_binop_same_length; [done|].
  unfold np_add_scalar. rewrite length_fmap, Hrel, length_zip_with. lia.
Qed.

(** C2. For a non-empty set of windows inside a chunked array,
    [window_statistic] returns; its depth is the maximum of
    [stop − start] over the windows; when the depth exceeds the last
    chunk, the chunk layout becomes the earlier chunks unchanged followed
    by one chunk whose length is the sum of the last two; otherwise the
    layout is unchanged. *)
Theorem window_statistic_rebalances values statistic ws we kwargs :
  ws ≠ [] →
  well_chunked values →
  windows_in_array (shape0 values) ws we →
  ∃ (depth : Z) (call : map_overlap_call A B) (front : list Z) (last_chunk : Z),
    window_statistic values statistic ws we kwargs = Ok call
    ∧ is_max_window_length depth ws we
    ∧ mo_depth call = depth
    ∧ arr_chunks values = front ++ [last_chunk]
    ∧ if decide (last_chunk < depth)
      then ∃ (earlier : list Z) (c2 : Z),
             front = earlier ++ [c2]
             ∧ arr_chunks (mo_values call) = earlier ++ [c2 + last_chunk]
      else arr_chunks (mo_values call) = arr_chunks values.
Proof.
  intros Hne [Hchunks Hsum] [Hlen Hwin].
  destruct (depth_is_max ws we Hne Hlen) as (depth & _ & _ & Hmax & Hdepth).
  destruct (snoc_inv _ Hchunks) as (front & b & Hcs).
  destruct (decide (b < depth)) as [Hlt|Hge].
  - destruct (decide (front = [])) as [->|Hfront].
    + exfalso. destruct Hdepth as [_ (i & s & e & Hs & He & ->)].
      destruct (Hwin i s e Hs He). rewrite Hcs in Hsum. simpl in Hsum. lia.
    + destruct (snoc_inv _ Hfront) as (earlier & c2 & ->).
      destruct (window_statistic_plan values statistic ws we kwargs depth
                  (earlier ++ [c2 + b]) Hlen Hmax) as (rel & wpc & _ & _ & Hcall).
      { rewrite Hcs, <- app_assoc. by apply rebalance_merge. }
      eexists depth, _, (earlier ++ [c2]), b.
      split; [exact Hcall|]. repeat split; try done; try apply Hdepth.
      rewrite decide_True by done. by exists earlier, c2.
  - destruct (window_statistic_plan values statistic ws we kwargs depth
                (front ++ [b]) Hlen Hmax) as (rel & wpc & _ & _ & Hcall).
    { rewrite Hcs. apply rebalance_keep. lia. }
    eexists depth, _, front, b.
    split; [exact Hcall|]. repeat split; try done; try apply Hdepth.
    rewrite decide_False by done. done.
Qed.

(** C8 (amended). With no windows [window_statistic] raises: the maximum
    of the empty array of window lengths is undefined. *)
Theorem window_statistic_no_windows values statistic kwargs :
  window_statistic values statistic [] [] kwargs
  = Raise ValueError_zero_size_reduction.
Proof. reflexivity. Qed.

End PipelineProperties.

(** An array of ten elements in chunks of 4, 3 and 3. *)
Lemma window_statistic_rebalances_witness :
  ∃ (depth : Z) (call : map_overlap_call Z Z) (front : list Z) (last_chunk : Z),
    window_statistic {| arr_data := seqZ 0 10; arr_chunks := [4; 3; 3] |}
      sum_statistic [0; 4; 8] [4; 8; 10] tt = Ok call
    ∧ is_max_window_length depth [0; 4; 8] [4; 8; 10]
    ∧ mo_depth call = depth
    ∧ [4; 3; 3] = front ++ [last_chunk]
    ∧ if decide (last_chunk < depth)
      then ∃ (earlier : list Z) (c2 : Z),
             front = earlier ++ [c2]
             ∧ arr_chunks (mo_values call) = earlier ++ [c2 + last_chunk]
      else arr_chunks (mo_values call) = [4; 3; 3].
Proof.
  apply (window_statistic_rebalances
           {| arr_data := seqZ 0 10; arr_chunks := [4; 3; 3] |}
           sum_statistic [0; 4; 8] [4; 8; 10] tt).
  - done.
  - split; [done|reflexivity].
  - split; [reflexivity|].
    intros [|[|[|i]]] s e Hs He; simpl in *; simplify_eq; vm_compute; split; congruence.
Defined.

(** C8 (counterexample). With no windows [window_statistic] raises, so
    the empty window set is not accepted. *)
Lemma empty_windows_rejected :
  ¬ empty_windows_accepted
      {| arr_data := seqZ 0 10; arr_chunks := [4; 3; 3] |} sum_statistic tt.
Proof. intros (call & Hcall & _). vm_compute in Hcall. discriminate. Qed.

(** ** Rebalancing twice *)

(** C7 (counterexample). Chunks of 1, 1 and 1 with the window [0, 3): the
    depth is 3, the first rebalancing gives chunks 1 and 2, the second
    gives one chunk of 3. *)
Lemma rebalance_twice_differs :
  is_max_window_length 3 [0] [3] ∧ ¬ rebalance_fixed_point 3 [1; 1; 1].
Proof.
  split.
  - split.
    + intros [|i] s e Hs He; simpl in *; simplify_eq. lia.
    + by exists 0%nat, 0, 3.
  - intros H. specialize (H [1; 2] eq_refl). vm_compute in H. discriminate.
Qed.

Lemma last_two_total_snoc front a b : last_two_total (front ++ [a; b]) = a + b.
Proof.
  unfold last_two_total. rewrite length_app. simpl.
  replace (length front + 2 - 2)%nat with (length front) by lia.
  rewrite drop_app_length. simpl. lia.
Qed.

(** C7 (amended). When the depth does not exceed the combined length of the
    last two chunks, the rebalancing step returns, and rebalancing the
    chunks it returned leaves them unchanged. *)
Theorem rebalance_idempotent (depth : Z) (chunks : list Z) :
  chunks ≠ [] →
  depth ≤ last_two_total chunks →
  (∃ new_chunk0, rebalance_chunks depth chunks = Ok new_chunk0)
  ∧ rebalance_fixed_point depth chunks.
Proof.
  intros Hne Hdepth.
  destruct (snoc_inv _ Hne) as (front & b & ->).
  assert (Hcase : rebalance_chunks depth (front ++ [b]) = Ok (front ++ [b]) ∧ depth ≤ b
                  ∨ ∃ earlier a, front = earlier ++ [a] ∧ depth ≤ a + b
                      ∧ rebalance_chunks depth (front ++ [b]) = Ok (earlier ++ [a + b])).
  { destruct (decide (depth ≤ b)) as [Hle|Hgt].
    - left. split; [by apply rebalance_keep|done].
    - right. destruct (decide (front = [])) as [->|Hfront].
      + unfold last_two_total in Hdepth. simpl in Hdepth. lia.
      + destruct (snoc_inv _ Hfront) as (earlier & a & ->).
        exists earlier, a. rewrite <- app_assoc in *. simpl in *.
        rewrite last_two_total_snoc in Hdepth.
        split; [done|]. split; [done|]. apply rebalance_merge. lia. }
  destruct Hcase as [[Hk Hle]|(earlier & a & -> & Hle & Hm)].
  - split; [eauto|]. intros new Hnew. rewrite Hk in Hnew. by simplify_eq.
  - split; [eauto|]. intros new Hnew. rewrite Hm in Hnew. simplify_eq.
    by apply rebalance_keep.
Qed.

Lemma rebalance_idempotent_witness :
  (∃ new_chunk0, rebalance_chunks 3 [4; 1; 2] = Ok new_chunk0)
  ∧ rebalance_fixed_point 3 [4; 1; 2].
Proof. apply (rebalance_idempotent 3 [4; 1; 2]); [done|vm_compute; congruence]. Defined.

(** ** The moving-statistic front end *)

Lemma py_index_raises {X} (l : list X) i e : py_index l i = Raise e → e = IndexError.
Proof.
  unfold py_index. destruct (_ <? 0); [by intros [= <-]|].
  destruct (l !! _); [done|by intros [= <-]].
Qed.

Lemma np_binop_raises f a b e : np_binop f a b = Raise e → e = ValueError_broadcast.
Proof.
  unfold np_binop. destruct (_ =? _); [done|].
  destruct a as [|x [|x' a]], b as [|y [|y' b]]; simpl; congruence.
Qed.

Lemma np_max_raises a e : np_max a = Raise e → e = ValueError_zero_size_reduction.
Proof. destruct a; simpl; congruence. Qed.

Lemma rebalance_chunks_raises depth chunks e :
  rebalance_chunks depth chunks = Raise e → e = IndexError.
Proof.
  unfold rebalance_chunks.
  destruct (py_index chunks (-1)) as [b|e1] eqn:H1; simpl;
    [|intros [= <-]; by eapply py_index_raises].
  destruct (b <? depth); [|done].
  destruct (py_index chunks (-2)) as [a|e2] eqn:H2; simpl;
    [|intros [= <-]; by eapply py_index_raises].
  done.
Qed.

Section FrontEndProperties.
Context {A B K : Type}.
Implicit Types (values : darray A) (statistic : list A → K → result B).
Implicit Types (kwargs : K).

(** [window_statistic] raises no chunk-size error. *)
Lemma window_statistic_raises values statistic ws we kwargs e :
  window_statistic values statistic ws we kwargs = Raise e →
  e = ValueError_broadcast ∨ e = ValueError_zero_size_reduction ∨ e = IndexError.
Proof.
  unfold window_statistic.
  destruct (np_sub we ws) as [wl|e1] eqn:H1; simpl;
    [|intros [= <-]; left; by eapply np_binop_raises].
  destruct (np_max wl) as [depth|e2] eqn:H2; simpl;
    [|intros [= <-]; right; left; by eapply np_max_raises].
  destruct (rebalance_chunks depth (arr_chunks values)) as [new|e3] eqn:H3; simpl;
    [|intros [= <-]; right; right; by eapply rebalance_chunks_raises].
  destruct (get_chunked_windows_total new (shape0 values) ws we)
    as (taken & _ & _ & ->). simpl.
  destruct (np_add _ wl) as [stops|e4] eqn:H4; simpl; [done|].
  intros [= <-]. left. by eapply np_binop_raises.
Qed.

(** The minimum that [moving_statistic] compares with [size]: over all
    chunks but the last, or over the only chunk. *)
Lemma min_chunksize_spec (front : list Z) (last_chunk : Z) :
  let chunks := front ++ [last_chunk] in
  let checked := if decide (front = []) then [last_chunk] else front in
  ∃ m, (if 1 <? len chunks then np_min (py_slice_to chunks (-1)) else np_min chunks)
       = Ok m
       ∧ m ∈ checked ∧ Forall (λ c, m ≤ c) checked.
Proof.
  simpl. destruct (decide (front = [])) as [->|Hne].
  - exists last_chunk. simpl. split; [done|]. split; [by left|].
    constructor; [lia|constructor].
  - rewrite len_app. assert (0 < len front).
    { destruct front; [done|]. unfold len. simpl. lia. }
    change (len [last_chunk]) with 1.
    destruct (Z.ltb_spec 1 (len front + 1)); [|lia].
    pose proof (py_slice_to_drop_last front [last_chunk] ltac:(done)) as Hs.
    change (- len [last_chunk]) with (-1) in Hs. rewrite Hs.
    destruct (np_min_spec front Hne) as (m & Hm & Hall & Hin). eauto.
Qed.

(** C5 (amended). [moving_statistic] takes the minimum [m] over all
    chunks but the last when there are several chunks, and over the only
    chunk when there is one; it raises its chunk-size error, whatever the
    step, the statistic and the data, when [m < size]; otherwise it hands
    the windows of [_get_windows] to [window_statistic]; and it raises
    the chunk-size error if and only if one of the chunks it looked at is
    shorter than [size]. *)
Theorem moving_statistic_check values statistic size step kwargs
    (front : list Z) (last_chunk : Z) :
  arr_chunks values = front ++ [last_chunk] →
  ∃ (checked : list Z) (m : Z),
    checked = (if decide (front = []) then [last_chunk] else front)
    ∧ m ∈ checked ∧ Forall (λ c, m ≤ c) checked
    ∧ (m < size →
       moving_statistic values statistic size step kwargs
       = Raise (ValueError_min_chunksize m size))
    ∧ (size ≤ m →
       moving_statistic values statistic size step kwargs
       = ('(window_starts, window_stops) ← _get_windows 0 (shape0 values) size step;
          window_statistic values statistic window_starts window_stops kwargs))
    ∧ ((∃ m', moving_statistic values statistic size step kwargs
              = Raise (ValueError_min_chunksize m' size))
       ↔ Exists (λ c, c < size) checked).
Proof.
  intros Hchunks.
  destruct (min_chunksize_spec front last_chunk) as (m & Hm & Hin & Hall).
  eexists _, m. split; [reflexivity|]. split; [done|]. split; [done|].
  assert (Hraise : m < size → moving_statistic values statistic size step kwargs
                              = Raise (ValueError_min_chunksize m size)).
  { intros Hlt. unfold moving_statistic. rewrite Hchunks, Hm. simpl.
    by destruct (Z.ltb_spec m size); [|lia]. }
  assert (Hpass : size ≤ m → moving_statistic values statistic size step kwargs
    = ('(window_starts, window_stops) ← _get_windows 0 (shape0 values) size step;
       window_statistic values statistic window_starts window_stops kwargs)).
  { intros Hge. unfold moving_statistic. rewrite Hchunks, Hm. simpl.
    by destruct (Z.ltb_spec m size); [lia|]. }
  split; [done|]. split; [done|]. split.
  - intros [m' Hm']. apply Exists_exists. exists m. split; [done|].
    destruct (decide (m < size)) as [|Hge]; [done|]. exfalso.
    rewrite Hpass in Hm' by lia.
    destruct (_get_windows 0 (shape0 values) size step) as [[ws we]|e] eqn:Hw;
      simpl in Hm'.
    + apply window_statistic_raises in Hm'. destruct Hm' as [?|[?|?]]; congruence.
    + unfold _get_windows, np_arange in Hw.
      destruct (step =? 0); simpl in Hw; congruence.
  - intros Hex. exists m. apply Hraise.
    apply Exists_exists in Hex as (c & Hc & Hlt).
    rewrite Forall_forall in Hall. specialize (Hall c Hc). simpl in Hall. lia.
Qed.

(** C10. With exactly one chunk, of length [L], and [size > L],
    [moving_statistic] raises the chunk-size error: the only chunk is
    checked although it is the last one. *)
Theorem moving_statistic_single_chunk values statistic size step kwargs (L : Z) :
  arr_chunks values = [L] →
  L < size →
  moving_statistic values statistic size step kwargs
  = Raise (ValueError_min_chunksize L size).
Proof.
  intros Hchunks Hlt. unfold moving_statistic. rewrite Hchunks. simpl.
  by destruct (Z.ltb_spec L size); [|lia].
Qed.

(** An array of length 0 has no windows, and [moving_statistic] raises on
    it whatever the chunks, the size and the step. *)
Lemma moving_statistic_no_windows values statistic size step kwargs :
  shape0 values = 0 →
  ∃ e, moving_statistic values statistic size step kwargs = Raise e.
Proof.
  intros Hlen. unfold moving_statistic. rewrite Hlen.
  destruct (if 1 <? len (arr_chunks values) then _ else _) as [m|e]; simpl; [|eauto].
  destruct (m <? size); [eauto|].
  unfold _get_windows, np_arange.
  destruct (Z.eqb_spec step 0) as [->|Hstep]; simpl; [eauto|].
  unfold arange_values, ceil_div. rewrite Z.sub_0_r, Z.opp_0, Z.div_0_l by done.
  simpl. eauto.
Qed.

(** ** The block-local reducer *)

(** Called without block information, or with an empty one, the reducer
    returns an empty result. *)
Lemma blockwise_moving_stat_probe statistic kwargs offs starts stops x :
  blockwise_moving_stat statistic kwargs offs starts stops x None = Ok []
  ∧ blockwise_moving_stat statistic kwargs offs starts stops x (Some []) = Ok [].
Proof. done. Qed.

(** For the block at position [k], when the offsets at [k] and [k + 1]
    exist, the reducer applies the statistic to the slice of each window
    between those offsets, in order. *)
Lemma blockwise_moving_stat_block statistic kwargs offs starts stops x
    (k : nat) (o1 o2 : Z) :
  offs !! k = Some o1 → offs !! S k = Some o2 →
  blockwise_moving_stat statistic kwargs offs starts stops x (block_info_at k)
  = comprehension (λ '(i, j), statistic (py_slice x i j) kwargs)
      (zip (py_slice starts o1 o2) (py_slice stops o1 o2)).
Proof.
  intros H1 H2. unfold blockwise_moving_stat, block_info_at.
  change (len _ =? 0) with false. cbn beta iota.
  change (dict_get _ (KInput 0)) with (Ok {| chunk_location := [Z.of_nat k] |}).
  cbn [mbind result_bind chunk_location].
  change (py_index [Z.of_nat k] 0) with (Ok (Z.of_nat k)).
  cbn [mbind result_bind].
  rewrite (py_index_nonneg offs k o1 H1). cbn [mbind result_bind].
  replace (Z.of_nat k + 1) with (Z.of_nat (S k)) by lia.
  rewrite (py_index_nonneg offs (S k) o2 H2). done.
Qed.

Lemma py_slice_length {X} (l : list X) (o1 o2 : Z) :
  0 ≤ o1 → o1 ≤ o2 → o2 ≤ len l →
  length (py_slice l o1 o2) = Z.to_nat (o2 - o1).
Proof.
  intros H1 H2 H3. unfold py_slice, slice_bound.
  destruct (Z.ltb_spec o1 0); [lia|]. destruct (Z.ltb_spec o2 0); [lia|].
  rewrite length_take, length_drop. unfold len in *. lia.
Qed.

Lemma sumZ_take_le sizes (k : nat) :
  Forall (λ c, 0 ≤ c) sizes → 0 ≤ sumZ (take k sizes) ≤ sumZ sizes.
Proof.
  intros Hnn. split.
  - apply sumZ_nonneg. by apply Forall_take.
  - rewrite <- (sumZ_take_all sizes).
    destruct (decide (k ≤ length sizes)%nat).
    + by apply sumZ_take_mono.
    + rewrite (take_ge sizes k) by lia. rewrite sumZ_take_all. lia.
Qed.

(** How many rows the reducer of [window_statistic] returns for the block
    at position [k]: as many as the [k]-th entry of [windows_per_chunk],
    which is at least 1; and beyond the entries of [windows_per_chunk] the
    reducer raises [IndexError]. *)
Lemma blockwise_moving_stat_rows values statistic ws we kwargs
    (call : map_overlap_call A B) (k : nat) (x : list A) :
  length ws = length we →
  window_statistic values statistic ws we kwargs = Ok call →
  (∀ (c : Z) (out : list B),
      mo_chunks call !! k = Some c →
      mo_func call x (block_info_at k) = Ok out →
      1 ≤ c ∧ len out = c)
  ∧ ((length (mo_chunks call) ≤ k)%nat →
     mo_func call x (block_info_at k) = Raise IndexError).
Proof.
  intros Hlen Hcall.
  assert (∃ depth new_chunk0, np_max (zip_with Z.sub we ws) = Ok depth
            ∧ rebalance_chunks depth (arr_chunks values) = Ok new_chunk0)
    as (depth & new & Hmax & Hreb).
  { unfold window_statistic, np_sub in Hcall.
    rewrite np_binop_same_length in Hcall by done. simpl in Hcall.
    destruct (np_max _) as [depth|]; simpl in Hcall; [|done].
    destruct (rebalance_chunks _ _) as [new|] eqn:Hreb; simpl in Hcall; [|done].
    eauto. }
  destruct (window_statistic_plan values statistic ws we kwargs depth new
              Hlen Hmax Hreb) as (rel & wpc & Hcw & Hrel & Hplan).
  rewrite Hplan in Hcall. injection Hcall as <-. cbn [mo_chunks mo_func].
  destruct (get_chunked_windows_total new (shape0 values) ws we)
    as (taken & _ & _ & Hcw').
  rewrite Hcw in Hcw'.
  assert (Hwpc : wpc = (np_unique_counts (chunk_numbers_of new ws)).2)
    by (by injection Hcw').
  destruct (np_unique_counts_spec (chunk_numbers_of new ws))
    as (_ & _ & _ & Hpos & Hsum).
  rewrite <- Hwpc in Hpos, Hsum. unfold len in Hsum.
  rewrite chunk_numbers_length in Hsum.
  assert (Hnn : Forall (λ c, 0 ≤ c) wpc).
  { eapply Forall_impl; [exact Hpos|]. simpl. lia. }
  set (offs := _sizes_to_start_offsets wpc).
  split.
  - intros c out Hc Hout.
    pose proof (lookup_lt_Some _ _ _ Hc) as Hk.
    rewrite (blockwise_moving_stat_block _ _ offs _ _ _ k
               (sumZ (take k wpc)) (sumZ (take (S k) wpc))) in Hout
      by (apply start_offsets_lookup; lia).
    apply comprehension_length in Hout.
    pose proof (sumZ_take_le wpc k Hnn) as Hk1.
    pose proof (sumZ_take_le wpc (S k) Hnn) as Hk2.
    assert (Hstep : sumZ (take (S k) wpc) = sumZ (take k wpc) + c).
    { rewrite (take_S_r _ _ _ Hc), sumZ_app. simpl. lia. }
    rewrite Forall_lookup in Hpos. specialize (Hpos _ _ Hc). simpl in Hpos.
    split; [done|].
    rewrite length_zip, !py_slice_length in Hout; unfold len; try lia.
    + unfold np_add_scalar.
      rewrite length_zip_with, length_fmap, length_zip_with. lia.
    + unfold np_add_scalar. rewrite length_fmap. lia.
  - intros Hk. unfold blockwise_moving_stat, block_info_at.
    change (len _ =? 0) with false. cbn beta iota.
    change (dict_get _ (KInput 0)) with (Ok {| chunk_location := [Z.of_nat k] |}).
    cbn [mbind result_bind chunk_location].
    change (py_index [Z.of_nat k] 0) with (Ok (Z.of_nat k)).
    cbn [mbind result_bind].
    pose proof (start_offsets_length wpc) as Hoffs. fold offs in Hoffs.
    destruct (decide (k = length wpc)) as [->|Hne].
    + destruct (lookup_lt_is_Some_2 offs (length wpc)) as [o1 Ho1]; [lia|].
      rewrite (py_index_nonneg offs _ o1 Ho1). cbn [mbind result_bind].
      rewrite (py_index_out_of_range offs (length wpc + 1)); [done|].
      unfold len. lia.
    + rewrite (py_index_out_of_range offs k); [done|]. unfold len. lia.
Qed.

End FrontEndProperties.

Lemma moving_statistic_check_witness :
  ∃ (checked : list Z) (m : Z),
    checked = (if decide ([5; 5] = []) then [1] else [5; 5])
    ∧ m ∈ checked ∧ Forall (λ c, m ≤ c) checked
    ∧ (m < 3 →
       moving_statistic {| arr_data := seqZ 0 11; arr_chunks := [5; 5; 1] |}
         sum_statistic 3 3 tt
       = Raise (ValueError_min_chunksize m 3))
    ∧ (3 ≤ m →
       moving_statistic {| arr_data := seqZ 0 11; arr_chunks := [5; 5; 1] |}
         sum_statistic 3 3 tt
       = ('(window_starts, window_stops) ←
            _get_windows 0 (shape0 {| arr_data := seqZ 0 11; arr_chunks := [5; 5; 1] |}) 3 3;
          window_statistic {| arr_data := seqZ 0 11; arr_chunks := [5; 5; 1] |}
            sum_statistic window_starts window_stops tt))
    ∧ ((∃ m', moving_statistic {| arr_data := seqZ 0 11; arr_chunks := [5; 5; 1] |}
                sum_statistic 3 3 tt
              = Raise (ValueError_min_chunksize m' 3))
       ↔ Exists (λ c, c < 3) checked).
Proof.
  apply (moving_statistic_check
           {| arr_data := seqZ 0 11; arr_chunks := [5; 5; 1] |}
           sum_statistic 3 3 tt [5; 5] 1).
  reflexivity.
Defined.

Lemma moving_statistic_single_chunk_witness :
  moving_statistic {| arr_data := seqZ 0 2; arr_chunks := [2] |} sum_statistic 3 3 tt
  = Raise (ValueError_min_chunksize 2 3).
Proof.
  apply (moving_statistic_single_chunk
           {| arr_data := seqZ 0 2; arr_chunks := [2] |} sum_statistic 3 3 tt 2).
  - reflexivity.
  - lia.
Defined.

(** C5 (counterexample). One chunk of length 2 and [size = 3]: the error
    is raised although no chunk other than the last is shorter than
    [size]. *)
Lemma single_chunk_is_checked :
  ¬ raises_iff_interior_small
      {| arr_data := seqZ 0 2; arr_chunks := [2] |} sum_statistic 3 3 tt.
Proof.
  intros [Hraise _].
  assert (Hex : Exists (λ c, c < 3) (removelast [2])).
  { apply Hraise. by exists 2. }
  simpl in Hex. by apply Exists_nil in Hex.
Qed.

(** C9 (failing input). Nine elements in chunks of 3, 3 and 3, [size = 3],
    [step = 7]: the windows are [0, 3) and [7, 9), in chunks 0 and 2;
    [windows_per_chunk] has the two entries 1 and 1 for three chunks; the
    reducer of chunk 1, which has no window, returns one row, computed
    from the relative start of the window of chunk 2; and the reducer of
    chunk 2 raises [IndexError]. *)
Lemma blockwise_moving_stat_empty_chunk :
  ∃ call : map_overlap_call Z Z,
    moving_statistic {| arr_data := seqZ 0 9; arr_chunks := [3; 3; 3] |}
      sum_statistic 3 7 tt = Ok call
    ∧ chunk_numbers_of (arr_chunks (mo_values call)) [0; 7] = [0; 2]
    ∧ mo_chunks call = [1; 1]
    ∧ mo_depth call = 3
    ∧ mo_func call [0; 0; 0; 0; 1; 2; 3; 4; 5] (block_info_at 0) = Ok [3]
    ∧ mo_func call [0; 1; 2; 3; 4; 5; 6; 7; 8] (block_info_at 1) = Ok [9]
    ∧ mo_func call [3; 4; 5; 6; 7; 8; 0; 0; 0] (block_info_at 2) = Raise IndexError.
Proof. eexists. split; [vm_compute; reflexivity|]. repeat split. Qed.

(** * Further properties of the window generator *)

(** X1. When the step does not exceed the size the windows leave no gap:
    every position from [start] up to [stop] lies in a window. *)
Theorem get_windows_cover (start stop size step p : Z) :
  1 ≤ step → step ≤ size → start ≤ p → p < stop →
  ∃ (starts stops : list Z) (i : nat),
    _get_windows start stop size step = Ok (starts, stops)
    ∧ in_window starts stops i p.
Proof.
  intros Hstep Hsize Hp1 Hp2.
  destruct (get_windows_lookup start stop size step Hstep)
    as (starts & stops & Heq & _ & Hlk & Hstop).
  set (q := (p - start) / step).
  assert (Hq : 0 ≤ q) by (apply Z.div_pos; lia).
  pose proof (Z.div_mod (p - start) step ltac:(lia)) as Hdm.
  pose proof (Z.mod_pos_bound (p - start) step ltac:(lia)) as Hr.
  fold q in Hdm.
  exists starts, stops, (Z.to_nat q). split; [done|].
  exists (start + q * step), (clip1 start stop (start + q * step + size)).
  rewrite Hlk, Hstop, Z2Nat.id by done.
  rewrite !decide_True by nia. unfold clip1.
  split; [done|]. split; [done|]. split; nia.
Qed.

Lemma get_windows_cover_witness :
  ∃ (starts stops : list Z) (i : nat),
    _get_windows 0 10 3 2 = Ok (starts, stops) ∧ in_window starts stops i 7.
Proof. apply (get_windows_cover 0 10 3 2 7); lia. Defined.

(** X2. When the size does not exceed the step the windows do not overlap:
    a window stops no later than the next one starts. *)
Theorem get_windows_disjoint (start stop size step : Z) :
  1 ≤ step → size ≤ step →
  ∃ starts stops : list Z,
    _get_windows start stop size step = Ok (starts, stops)
    ∧ ∀ (i j : nat) (e s : Z),
        (i < j)%nat → stops !! i = Some e → starts !! j = Some s → e ≤ s.
Proof.
  intros Hstep Hsize.
  destruct (get_windows_lookup start stop size step Hstep)
    as (starts & stops & Heq & _ & Hlk & Hstop).
  exists starts, stops. split; [done|].
  intros i j e s Hij. rewrite Hlk, Hstop. unfold clip1.
  repeat destruct (decide _); intros; simplify_eq. nia.
Qed.

Lemma get_windows_disjoint_witness :
  ∃ starts stops : list Z,
    _get_windows 0 10 2 3 = Ok (starts, stops)
    ∧ ∀ (i j : nat) (e s : Z),
        (i < j)%nat → stops !! i = Some e → starts !! j = Some s → e ≤ s.
Proof. apply (get_windows_disjoint 0 10 2 3); lia. Defined.

(** X3. The number of windows is the least [n] with [start + n*step ≥ stop]:
    for [start < stop] and a positive step there are [n ≥ 1] windows with
    [start + (n-1)*step < stop ≤ start + n*step], whatever the size. *)
Theorem get_windows_count (start stop size step : Z) :
  1 ≤ step → start < stop →
  ∃ starts stops : list Z,
    _get_windows start stop size step = Ok (starts, stops)
    ∧ 1 ≤ len starts
    ∧ len stops = len starts
    ∧ start + (len starts - 1) * step < stop
    ∧ stop ≤ start + len starts * step.
Proof.
  intros Hstep Hlt.
  destruct (get_windows_lookup start stop size step Hstep)
    as (starts & stops & Heq & Hlen & Hlk & _).
  exists starts, stops. split; [done|].
  assert (Hdom : ∀ i : nat, (i < length starts)%nat ↔ start + i * step < stop).
  { intros i. rewrite <- lookup_lt_is_Some, Hlk.
    destruct (decide _); split; intros H; done. }
  assert (Hne : (0 < length starts)%nat) by (apply (Hdom 0%nat); lia).
  pose proof (Hdom (Nat.pred (length starts))) as H1.
  pose proof (Hdom (length starts)) as H2.
  unfold len. rewrite <- Hlen.
  replace (Z.of_nat (Nat.pred (length starts))) with (length starts - 1) in H1 by lia.
  assert (stop ≤ start + length starts * step).
  { destruct (decide (stop ≤ start + length starts * step)); [done|].
    assert (length starts < length starts)%nat by (apply H2; lia). lia. }
  repeat split; lia.
Qed.

Lemma get_windows_count_witness :
  ∃ starts stops : list Z,
    _get_windows 0 10 3 4 = Ok (starts, stops)
    ∧ 1 ≤ len starts
    ∧ len stops = len starts
    ∧ 0 + (len starts - 1) * 4 < 10
    ∧ 10 ≤ 0 + len starts * 4.
Proof. apply (get_windows_count 0 10 3 4); lia. Defined.

(** X4. An empty range has no windows: with [stop ≤ start] and a positive
    step [_get_windows] returns two empty arrays and raises nothing. *)
Theorem get_windows_empty_range (start stop size step : Z) :
  1 ≤ step → stop ≤ start →
  _get_windows start stop size step = Ok ([], []).
Proof.
  intros Hstep Hle.
  destruct (get_windows_lookup start stop size step Hstep)
    as (starts & stops & -> & Hlen & Hlk & _).
  assert (starts = []) as ->.
  { destruct starts as [|s starts]; [done|].
    specialize (Hlk 0%nat). rewrite decide_False in Hlk by lia. done. }
  by destruct stops.
Qed.

Lemma get_windows_empty_range_witness : _get_windows 5 5 3 2 = Ok ([], []).
Proof. apply (get_windows_empty_range 5 5 3 2); lia. Defined.

(** * Further properties of the cumulative offsets *)

(** X5. [_sizes_to_start_offsets] returns one offset more than there are
    sizes; the offset at position [k] is the sum of the first [k] sizes, so
    the first offset is 0 and the last is the total. *)
Theorem start_offsets_spec (sizes : list Z) (k : nat) :
  _sizes_to_start_offsets sizes !! k
  = if decide (k ≤ length sizes)%nat then Some (sumZ (take k sizes)) else None.
Proof.
  destruct (decide _) as [Hk|Hk].
  - by apply start_offsets_lookup.
  - apply lookup_ge_None_2. rewrite start_offsets_length. lia.
Qed.

(** X6. Consecutive offsets differ by the size between them: the sizes can
    be read back from the offsets. *)
Theorem start_offsets_differences (sizes : list Z) (k : nat) (c : Z) :
  sizes !! k = Some c →
  ∃ a b : Z,
    _sizes_to_start_offsets sizes !! k = Some a
    ∧ _sizes_to_start_offsets sizes !! S k = Some b
    ∧ b - a = c.
Proof.
  intros Hc. pose proof (lookup_lt_Some _ _ _ Hc) as Hk.
  exists (sumZ (take k sizes)), (sumZ (take (S k) sizes)).
  rewrite !start_offsets_lookup by lia.
  split; [done|]. split; [done|].
  rewrite (take_S_r _ _ _ Hc), sumZ_app. simpl. lia.
Qed.

Lemma start_offsets_differences_witness :
  ∃ a b : Z,
    _sizes_to_start_offsets [4; 3; 3] !! 1%nat = Some a
    ∧ _sizes_to_start_offsets [4; 3; 3] !! 2%nat = Some b
    ∧ b - a = 3.
Proof. apply (start_offsets_differences [4; 3; 3] 1 3). reflexivity. Defined.

(** * Further properties of the chunk mapper *)

(** X7. The relative start of a window lies inside its chunk: for
    non-negative chunk lengths and a window start inside the array,
    the relative start [rel] and the chunk [c] that
    [_get_chunked_windows] assigns satisfy [0 ≤ rel < chunks[c]], and the
    offset of chunk [c] plus [rel] is the window start again. *)
Theorem chunked_windows_rel_in_chunk (chunks : list Z) (total : Z) (ws we : list Z) :
  Forall (λ c, 0 ≤ c) chunks →
  Forall (λ w, 0 ≤ w ∧ w < sumZ chunks) ws →
  ∃ rel wpc : list Z,
    _get_chunked_windows chunks total ws we = Ok (rel, wpc)
    ∧ length rel = length ws
    ∧ ∀ (i : nat) (w r : Z), ws !! i = Some w → rel !! i = Some r →
        ∃ (c : nat) (size_c : Z),
          chunk_numbers_of chunks ws !! i = Some (Z.of_nat c)
          ∧ chunks !! c = Some size_c
          ∧ 0 ≤ r ∧ r < size_c
          ∧ sumZ (take c chunks) + r = w.
Proof.
  intros Hnn Hws.
  destruct (get_chunked_windows_total chunks total ws we)
    as (taken & Htake & Hlen & ->).
  eexists _, _. split; [done|]. split; [rewrite length_zip_with; lia|].
  intros i w r Hw Hr.
  rewrite Forall_lookup in Hws. destruct (Hws _ _ Hw) as [Hw0 Hw1].
  destruct (chunk_of_window_start chunks w Hnn Hw0 Hw1) as (c & Hc & Hlt & Hlo & Hhi).
  pose proof (chunk_numbers_lookup chunks _ _ _ Hw) as Hcn. rewrite Hc in Hcn.
  destruct (comprehension_lookup _ _ _ _ _ Htake Hcn) as (off & Hoff & Htk).
  rewrite (py_index_nonneg _ c (sumZ (take c chunks))) in Hoff
    by (apply start_offsets_lookup; lia).
  simplify_eq. rewrite lookup_zip_with, Hw, Htk in Hr. simpl in Hr. simplify_eq.
  destruct (lookup_lt_is_Some_2 chunks c Hlt) as [size_c Hsize].
  exists c, size_c. split; [done|]. split; [done|].
  rewrite (take_S_r _ _ _ Hsize), sumZ_app in Hhi. simpl in Hhi. lia.
Qed.

Lemma chunked_windows_rel_in_chunk_witness :
  ∃ rel wpc : list Z,
    _get_chunked_windows [4; 3; 3] 10 [0; 3; 6; 9] [3; 6; 9; 10] = Ok (rel, wpc)
    ∧ length rel = length [0; 3; 6; 9]
    ∧ ∀ (i : nat) (w r : Z), [0; 3; 6; 9] !! i = Some w → rel !! i = Some r →
        ∃ (c : nat) (size_c : Z),
          chunk_numbers_of [4; 3; 3] [0; 3; 6; 9] !! i = Some (Z.of_nat c)
          ∧ [4; 3; 3] !! c = Some size_c
          ∧ 0 ≤ r ∧ r < size_c
          ∧ sumZ (take c [4; 3; 3]) + r = w.
Proof.
  apply (chunked_windows_rel_in_chunk [4; 3; 3] 10 [0; 3; 6; 9] [3; 6; 9; 10]).
  - repeat constructor; lia.
  - repeat constructor; vm_compute; congruence.
Defined.

Lemma searchsorted_right1_mono a v v' :
  v ≤ v' → searchsorted_right1 a v ≤ searchsorted_right1 a v'.
Proof.
  intros Hv. induction a as [|x a IH]; simpl; [lia|].
  destruct (Z.leb_spec x v), (Z.leb_spec x v'); try lia.
  pose proof (searchsorted_right1_range a v'). lia.
Qed.

Lemma chunk_numbers_of_mono (chunks ws : list Z) :
  nondecreasing ws → nondecreasing (chunk_numbers_of chunks ws).
Proof.
  intros Hws i j a b Hij Ha Hb.
  assert (is_Some (ws !! i)) as [wi Hwi].
  { apply lookup_lt_is_Some. rewrite <- (chunk_numbers_length chunks).
    apply lookup_lt_is_Some. eauto. }
  assert (is_Some (ws !! j)) as [wj Hwj].
  { apply lookup_lt_is_Some. rewrite <- (chunk_numbers_length chunks).
    apply lookup_lt_is_Some. eauto. }
  rewrite (chunk_numbers_lookup _ _ _ _ Hwi) in Ha.
  rewrite (chunk_numbers_lookup _ _ _ _ Hwj) in Hb. simplify_eq.
  pose proof (searchsorted_right1_mono (_sizes_to_start_offsets chunks) wi wj
                (Hws i j wi wj Hij Hwi Hwj)). lia.
Qed.

(** X8. Windows in ascending order of their starts are assigned chunks in
    ascending order: the chunk numbers are non-decreasing. *)
Theorem chunk_numbers_nondecreasing (chunks ws : list Z) :
  nondecreasing ws → nondecreasing (chunk_numbers_of chunks ws).
Proof. apply chunk_numbers_of_mono. Qed.

Lemma chunk_numbers_nondecreasing_witness :
  nondecreasing (chunk_numbers_of [4; 3; 3] [0; 3; 6; 9]).
Proof.
  apply (chunk_numbers_nondecreasing [4; 3; 3] [0; 3; 6; 9]).
  intros i j a b Hij Ha Hb.
  destruct i as [|[|[|[|i]]]], j as [|[|[|[|j]]]];
    simpl in *; simplify_eq; lia.
Defined.

Lemma searchsorted_right1_all_le a v :
  Forall (λ x, x ≤ v) a → searchsorted_right1 a v = len a.
Proof.
  unfold len. induction 1 as [|x a Hx _ IH]; simpl; [done|].
  destruct (Z.leb_spec x v); lia.
Qed.

Lemma start_offsets_bounded sizes :
  Forall (λ c, 0 ≤ c) sizes →
  Forall (λ x, x ≤ sumZ sizes) (_sizes_to_start_offsets sizes).
Proof.
  intros Hnn. apply Forall_lookup. intros k x Hk.
  assert (k ≤ length sizes)%nat.
  { apply lookup_lt_Some in Hk. rewrite start_offsets_length in Hk. lia. }
  rewrite start_offsets_lookup in Hk by done. simplify_eq.
  apply sumZ_take_le. done.
Qed.

Lemma start_offsets_last sizes :
  py_index (_sizes_to_start_offsets sizes) (-1) = Ok (sumZ sizes).
Proof.
  destruct (py_index_ok (_sizes_to_start_offsets sizes) (-1)) as (x & -> & Hx).
  { unfold len. rewrite start_offsets_length. lia. }
  unfold wrap_index, len in Hx. rewrite start_offsets_length in Hx.
  change (-1 <? 0) with true in Hx. cbn beta iota in Hx.
  replace (Z.to_nat (-1 + S (length sizes))) with (length sizes) in Hx by lia.
  rewrite start_offsets_lookup, sumZ_take_all in Hx by lia. by simplify_eq.
Qed.

(** X9. A window start outside the array raises nothing.  A negative start
    is given the chunk number -1, a start at or after the end of the array
    the number of chunks (one past the last chunk index); in both cases
    the relative start is the window start minus the length of all
    chunks. *)
Theorem chunked_windows_out_of_range (chunks : list Z) (total : Z) (ws we : list Z) :
  Forall (λ c, 0 ≤ c) chunks →
  ∃ rel wpc : list Z,
    _get_chunked_windows chunks total ws we = Ok (rel, wpc)
    ∧ ∀ (i : nat) (w : Z), ws !! i = Some w →
        (w < 0 →
           chunk_numbers_of chunks ws !! i = Some (-1)
           ∧ rel !! i = Some (w - sumZ chunks))
        ∧ (sumZ chunks ≤ w →
           chunk_numbers_of chunks ws !! i = Some (len chunks)
           ∧ rel !! i = Some (w - sumZ chunks)).
Proof.
  intros Hnn.
  destruct (get_chunked_windows_total chunks total ws we)
    as (taken & Htake & Hlen & ->).
  eexists _, _. split; [done|]. intros i w Hw.
  pose proof (chunk_numbers_lookup chunks _ _ _ Hw) as Hcn.
  destruct (comprehension_lookup _ _ _ _ _ Htake Hcn) as (off & Hoff & Htk).
  set (offs := _sizes_to_start_offsets chunks) in *.
  assert (Hlast : offs !! length chunks = Some (sumZ chunks)).
  { unfold offs. rewrite start_offsets_lookup by lia. by rewrite sumZ_take_all. }
  split.
  - intros Hneg.
    assert (Hr : searchsorted_right1 offs w = 0).
    { unfold offs. rewrite start_offsets_cons. simpl.
      by destruct (Z.leb_spec 0 w); [lia|]. }
    rewrite Hr in Hcn, Hoff. change (0 - 1) with (-1) in Hcn, Hoff.
    unfold offs in Hoff. rewrite start_offsets_last in Hoff. simplify_eq.
    split; [done|]. by rewrite lookup_zip_with, Hw, Htk.
  - intros Hge.
    assert (Hr : searchsorted_right1 offs w = len offs).
    { apply searchsorted_right1_all_le.
      eapply Forall_impl; [by apply start_offsets_bounded|]. simpl. lia. }
    unfold len in Hr. unfold offs in Hr at 2. rewrite start_offsets_length in Hr.
    rewrite Hr in Hcn, Hoff.
    replace (Z.of_nat (S (length chunks)) - 1) with (Z.of_nat (length chunks))
      in Hcn, Hoff by lia.
    rewrite (py_index_nonneg _ _ _ Hlast) in Hoff. simplify_eq.
    split; [done|]. by rewrite lookup_zip_with, Hw, Htk.
Qed.

Lemma chunked_windows_out_of_range_witness :
  ∃ rel wpc : list Z,
    _get_chunked_windows [4; 3; 3] 10 [-2; 12] [1; 13] = Ok (rel, wpc)
    ∧ ∀ (i : nat) (w : Z), [-2; 12] !! i = Some w →
        (w < 0 →
           chunk_numbers_of [4; 3; 3] [-2; 12] !! i = Some (-1)
           ∧ rel !! i = Some (w - sumZ [4; 3; 3]))
        ∧ (sumZ [4; 3; 3] ≤ w →
           chunk_numbers_of [4; 3; 3] [-2; 12] !! i = Some (len [4; 3; 3])
           ∧ rel !! i = Some (w - sumZ [4; 3; 3])).
Proof.
  apply (chunked_windows_out_of_range [4; 3; 3] 10 [-2; 12] [1; 13]).
  repeat constructor; lia.
Defined.

(** * Further properties of the rebalancing step *)

Lemma rebalance_preserves_total_aux (depth : Z) (chunks new_chunk0 : list Z) :
  rebalance_chunks depth chunks = Ok new_chunk0 →
  sumZ new_chunk0 = sumZ chunks.
Proof.
  intros Hreb.
  destruct (decide (chunks = [])) as [->|Hne]; [done|].
  destruct (snoc_inv _ Hne) as (front & b & ->).
  destruct (decide (depth ≤ b)) as [Hle|Hgt].
  - rewrite rebalance_keep in Hreb by done. by simplify_eq.
  - destruct (decide (front = [])) as [->|Hfront].
    + simpl in Hreb. rewrite rebalance_single_raises in Hreb by lia. done.
    + destruct (snoc_inv _ Hfront) as (earlier & a & ->).
      rewrite <- app_assoc in *. simpl in *.
      rewrite rebalance_merge in Hreb by lia. simplify_eq.
      rewrite !sumZ_app. simpl. lia.
Qed.

(** X10. Rebalancing keeps the total length of the chunks and never adds
    a chunk: the chunks it returns sum to the same length, and they are
    either the same chunks or one chunk fewer. *)
Theorem rebalance_preserves_total (depth : Z) (chunks new_chunk0 : list Z) :
  rebalance_chunks depth chunks = Ok new_chunk0 →
  sumZ new_chunk0 = sumZ chunks
  ∧ (new_chunk0 = chunks ∨ S (length new_chunk0) = length chunks).
Proof.
  intros Hreb.
  destruct (decide (chunks = [])) as [->|Hne]; [done|].
  destruct (snoc_inv _ Hne) as (front & b & ->).
  destruct (decide (depth ≤ b)) as [Hle|Hgt].
  - rewrite rebalance_keep in Hreb by done. simplify_eq. eauto.
  - destruct (decide (front = [])) as [->|Hfront].
    + simpl in Hreb. rewrite rebalance_single_raises in Hreb by lia. done.
    + destruct (snoc_inv _ Hfront) as (earlier & a & ->).
      rewrite <- app_assoc in *. simpl in *.
      rewrite rebalance_merge in Hreb by lia. simplify_eq.
      rewrite !sumZ_app, !length_app. simpl. split; [lia|right; lia].
Qed.

Lemma rebalance_preserves_total_witness :
  sumZ [4; 6] = sumZ [4; 3; 3]
  ∧ ([4; 6] = [4; 3; 3] ∨ S (length [4; 6]) = length [4; 3; 3]).
Proof. apply (rebalance_preserves_total 5 [4; 3; 3] [4; 6]). reflexivity. Defined.

Section FurtherPipelineProperties.
Context {A B K : Type}.
Implicit Types (values : darray A) (statistic : list A → K → result B).
Implicit Types (kwargs : K) (ws we chunks : list Z).

(** * Further properties of [window_statistic] *)

(** X12. With a single chunk and a window longer than that chunk
    [window_statistic] raises [IndexError]: there is no second chunk to
    combine the last one with. *)
Theorem window_statistic_single_chunk_short values statistic ws we kwargs
    (b : Z) (i : nat) (s e : Z) :
  arr_chunks values = [b] →
  length ws = length we →
  ws !! i = Some s → we !! i = Some e → b < e - s →
  window_statistic values statistic ws we kwargs = Raise IndexError.
Proof.
  intros Hchunks Hlen Hs He Hlong.
  assert (ws ≠ []) as Hne by (by intros ->).
  destruct (depth_is_max ws we Hne Hlen) as (depth & _ & _ & Hmax & Hub & _).
  specialize (Hub i s e Hs He).
  unfold window_statistic, np_sub. rewrite np_binop_same_length by done.
  simpl. rewrite Hmax. simpl. rewrite Hchunks.
  by rewrite rebalance_single_raises by lia.
Qed.

(** * Further properties of [moving_statistic] *)

(** The windows of [moving_statistic] on an array at least [size] long:
    there is at least one, and the depth is [size]. *)
Lemma moving_windows_depth (L size step : Z) :
  1 ≤ size → size ≤ L → 1 ≤ step →
  ∃ starts stops : list Z,
    _get_windows 0 L size step = Ok (starts, stops)
    ∧ starts ≠ []
    ∧ length starts = length stops
    ∧ np_max (zip_with Z.sub stops starts) = Ok size.
Proof.
  intros Hsize HL Hstep.
  destruct (get_windows_lookup 0 L size step Hstep)
    as (starts & stops & Heq & Hlen & Hlk & Hstop).
  exists starts, stops. split; [done|].
  assert (Hne : starts ≠ []).
  { intros ->. specialize (Hlk 0%nat). rewrite decide_True in Hlk by lia. done. }
  split; [done|]. split; [done|].
  destruct (depth_is_max starts stops Hne Hlen)
    as (depth & _ & _ & Hmax & Hub & (i & s & e & Hs & He & Hd)).
  rewrite Hmax. f_equal.
  assert (size ≤ depth).
  { assert (size - 0 ≤ depth); [|lia]. apply (Hub 0%nat 0 size).
    - rewrite Hlk, decide_True by lia. f_equal; lia.
    - rewrite Hstop, decide_True by lia. unfold clip1. f_equal; lia. }
  assert (depth ≤ size).
  { rewrite Hlk in Hs. rewrite Hstop in He. unfold clip1 in He.
    destruct (decide _); simplify_eq. lia. }
  lia.
Qed.

(** What [moving_statistic] computes on an array that passes its check. *)
Lemma moving_statistic_plan values statistic size step kwargs
    (front : list Z) (last_chunk : Z) :
  arr_chunks values = front ++ [last_chunk] →
  sumZ (arr_chunks values) = shape0 values →
  0 ≤ last_chunk →
  Forall (λ c, size ≤ c) (if decide (front = []) then [last_chunk] else front) →
  1 ≤ size → 1 ≤ step →
  ∃ (call : map_overlap_call A B) (ws we : list Z),
    _get_windows 0 (shape0 values) size step = Ok (ws, we)
    ∧ length ws = length we
    ∧ window_statistic values statistic ws we kwargs = Ok call
    ∧ moving_statistic values statistic size step kwargs = Ok call
    ∧ mo_depth call = size
    ∧ Forall (λ c, size ≤ c) (arr_chunks (mo_values call))
    ∧ sumZ (arr_chunks (mo_values call)) = shape0 values
    ∧ arr_data (mo_values call) = arr_data values.
Proof.
  intros Hchunks Hsum Hlast Hcheck Hsize Hstep.
  destruct (min_chunksize_spec front last_chunk) as (m & Hm & Hin & _).
  assert (size ≤ m) as Hmge.
  { rewrite Forall_forall in Hcheck. by apply Hcheck. }
  assert (Hfront : Forall (λ c, size ≤ c) front).
  { destruct (decide (front = [])) as [->|]; [constructor|done]. }
  assert (HL : size ≤ shape0 values).
  { rewrite <- Hsum, Hchunks, sumZ_app. simpl.
    destruct front as [|c0 front']; simpl.
    - rewrite decide_True in Hcheck by done.
      apply Forall_inv in Hcheck. lia.
    - apply Forall_cons in Hfront as [Hc0 Hrest].
      assert (0 ≤ sumZ front').
      { apply sumZ_nonneg. eapply Forall_impl; [exact Hrest|]. simpl. lia. }
      lia. }
  destruct (moving_windows_depth (shape0 values) size step Hsize HL Hstep)
    as (starts & stops & Hwin & Hne & Hlen & Hmax).
  assert (∃ new, rebalance_chunks size (arr_chunks values) = Ok new
                 ∧ Forall (λ c, size ≤ c) new) as (new & Hreb & Hnew).
  { rewrite Hchunks. destruct (decide (size ≤ last_chunk)) as [Hle|Hgt].
    - exists (front ++ [last_chunk]). split; [by apply rebalance_keep|].
      apply Forall_app. split; [done|]. by constructor.
    - destruct (decide (front = [])) as [->|Hfne].
      + apply Forall_inv in Hcheck. lia.
      + destruct (snoc_inv _ Hfne) as (earlier & a & ->).
        exists (earlier ++ [a + last_chunk]). rewrite <- app_assoc. simpl.
        split; [apply rebalance_merge; lia|].
        apply Forall_app in Hfront as [Hearlier Ha].
        apply Forall_inv in Ha.
        apply Forall_app. split; [done|]. constructor; [lia|constructor]. }
  destruct (window_statistic_plan values statistic starts stops kwargs size new
              Hlen Hmax Hreb) as (rel & wpc & _ & _ & Hplan).
  eexists _, starts, stops. split; [done|]. split; [done|].
  split; [exact Hplan|]. split.
  - unfold moving_statistic. rewrite Hchunks, Hm. simpl.
    destruct (Z.ltb_spec m size); [lia|].
    rewrite Hwin. simpl. exact Hplan.
  - cbn [mo_values mo_chunks mo_depth rechunk arr_data arr_chunks].
    split; [done|]. split; [done|]. split; [|done].
    rewrite <- Hsum. by apply (rebalance_preserves_total_aux size).
Qed.

End FurtherPipelineProperties.

(** * The reducer on a chunk whose predecessors all have windows *)

Lemma py_slice_lookup {X} (l : list X) (a b : Z) (j : nat) :
  0 ≤ a → a ≤ b →
  py_slice l a b !! j
  = if decide (a + j < b) then l !! Z.to_nat (a + j) else None.
Proof.
  intros Ha Hab. unfold py_slice, slice_bound.
  destruct (Z.ltb_spec a 0); [lia|]. destruct (Z.ltb_spec b 0); [lia|].
  pose proof (len_nonneg l) as Hn.
  destruct (decide (a + j < b)) as [Hlt|Hge].
  - destruct (decide (a + j < len l)) as [Hin|Hout].
    + rewrite lookup_take_lt by lia. rewrite lookup_drop. f_equal. lia.
    + rewrite (lookup_ge_None_2 l) by (unfold len in *; lia).
      apply lookup_ge_None_2. rewrite length_take, length_drop.
      unfold len in *. lia.
  - apply lookup_ge_None_2. rewrite length_take. lia.
Qed.

Lemma holds_range_slice {X} (data x : list X) (lo hi s e : Z) :
  holds_range data x lo hi →
  lo ≤ s → 0 ≤ s → s ≤ e → e ≤ len data → e ≤ hi →
  py_slice x (s - lo) (e - lo) = py_slice data s e.
Proof.
  intros Hx Hlo Hs Hse He Hhi. apply list_eq. intros j.
  rewrite !py_slice_lookup by lia.
  destruct (decide (s - lo + j < e - lo)), (decide (s + j < e)); try lia; [|done].
  destruct (lookup_lt_is_Some_2 data (Z.to_nat (s + j))) as [a Ha];
    [unfold len in *; lia|].
  rewrite Ha. rewrite <- (Hx (Z.to_nat (s + j)) a Ha) by lia.
  f_equal. lia.
Qed.

Lemma comprehension_ext_lookup {X Y R} (g : X → result R) (f : Y → result R)
    (l1 : list X) (l2 : list Y) :
  length l1 = length l2 →
  (∀ (j : nat) a b, l1 !! j = Some a → l2 !! j = Some b → g a = f b) →
  comprehension g l1 = comprehension f l2.
Proof.
  revert l2. induction l1 as [|a l1 IH]; intros [|b l2] Hlen Hext;
    simpl in *; try done.
  rewrite (Hext 0%nat a b eq_refl eq_refl).
  rewrite (IH l2); [done|lia|].
  intros j a' b' Ha Hb. by apply (Hext (S j)).
Qed.

(** *** Positions of the windows of a chunk *)

Lemma count_below_le k l : (count_below k l ≤ length l)%nat.
Proof. induction l; simpl; [lia|]. destruct (decide _); lia. Qed.

Lemma count_below_succ (k : Z) l :
  Z.of_nat (count_below (k + 1) l) = count_below k l + occurrences k l.
Proof.
  induction l as [|x l IH]; simpl; [done|].
  repeat destruct (decide _); lia.
Qed.

Lemma count_below_none k l : Forall (λ x, k ≤ x) l → count_below k l = 0%nat.
Proof.
  induction 1 as [|x l Hx _ IH]; simpl; [done|].
  rewrite decide_False by lia. lia.
Qed.

Lemma nondecreasing_tail x l : nondecreasing (x :: l) → nondecreasing l.
Proof. intros H i j a b Hij Ha Hb. by apply (H (S i) (S j)); [lia|..]. Qed.

Lemma nondecreasing_head x l : nondecreasing (x :: l) → Forall (λ y, x ≤ y) l.
Proof.
  intros H. apply Forall_lookup. intros i y Hy.
  by apply (H 0%nat (S i)); [lia|..].
Qed.

(** In a non-decreasing list the entries below [k] come first. *)
Lemma count_below_lookup k l (i : nat) x :
  nondecreasing l → l !! i = Some x → (i < count_below k l)%nat ↔ x < k.
Proof.
  revert i. induction l as [|y l IH]; intros i Hnd Hx; [done|].
  pose proof (nondecreasing_head _ _ Hnd) as Hhead.
  pose proof (nondecreasing_tail _ _ Hnd) as Htail.
  simpl. destruct (decide (y < k)) as [Hy|Hy].
  - destruct i as [|i]; simpl in *.
    + simplify_eq. split; [done|lia].
    + rewrite <- (IH i Htail Hx). lia.
  - rewrite count_below_none.
    + rewrite Forall_lookup in Hhead.
      destruct i as [|i]; simpl in *; simplify_eq; [lia|].
      specialize (Hhead _ _ Hx). simpl in Hhead. lia.
    + eapply Forall_impl; [exact Hhead|]. simpl. lia.
Qed.

(** A strictly ascending list of integers from [base] on that holds
    [base], ..., [base + k] holds them at its first positions. *)
Lemma sorted_prefix (l : list Z) (base : Z) (k : nat) :
  StronglySorted Z.lt l →
  Forall (λ x, base ≤ x) l →
  (∀ c : nat, (c ≤ k)%nat → base + c ∈ l) →
  ∀ c : nat, (c ≤ k)%nat → l !! c = Some (base + c).
Proof.
  revert l base. induction k as [|k IH]; intros l base Hs Hge Hin c Hc.
  - assert (c = 0%nat) as -> by lia.
    destruct l as [|x l]; [by specialize (Hin 0%nat ltac:(lia)); apply elem_of_nil in Hin|].
    apply StronglySorted_inv in Hs as [_ Hall].
    apply Forall_cons in Hge as [Hx _].
    specialize (Hin 0%nat ltac:(lia)). apply elem_of_cons in Hin as [Heq|Hin].
    + simpl. f_equal. lia.
    + rewrite Forall_forall in Hall. specialize (Hall _ Hin). lia.
  - destruct l as [|x l]; [by specialize (Hin 0%nat ltac:(lia)); apply elem_of_nil in Hin|].
    apply StronglySorted_inv in Hs as [Hs Hall].
    apply Forall_cons in Hge as [Hx Hge].
    assert (x = base) as ->.
    { pose proof (Hin 0%nat ltac:(lia)) as H0. apply elem_of_cons in H0 as [Heq|H0].
      - lia.
      - rewrite Forall_forall in Hall. specialize (Hall _ H0). lia. }
    destruct c as [|c]; [simpl; f_equal; lia|]. simpl.
    assert (Hl : l !! c = Some (base + 1 + c)).
    { apply (IH l (base + 1)); [done| | |lia].
      - eapply Forall_impl; [exact Hall|]. simpl. lia.
      - intros c' Hc'. pose proof (Hin (S c') ltac:(lia)) as H1.
        apply elem_of_cons in H1 as [Heq|H1]; [lia|].
        replace (base + 1 + c') with (base + S c') by lia. done. }
    rewrite Hl. f_equal. lia.
Qed.

(** When the chunks 0, ..., [k] all have a window, the offsets computed
    from [windows_per_chunk] up to position [k + 1] count the windows of
    the chunks before. *)
Lemma counts_offsets (cn : list Z) (k : nat) :
  Forall (λ c, 0 ≤ c) cn →
  (∀ c : nat, (c ≤ k)%nat → Z.of_nat c ∈ cn) →
  ∀ c : nat, (c ≤ S k)%nat →
    _sizes_to_start_offsets (np_unique_counts cn).2 !! c
    = Some (Z.of_nat (count_below c cn)).
Proof.
  intros Hnn Hprefix.
  destruct (np_unique_counts_spec cn) as (Hsorted & Hkeys & Hcounts & _ & _).
  set (present := (np_unique_counts cn).1) in *.
  set (wpc := (np_unique_counts cn).2) in *.
  assert (Hpresent : ∀ c : nat, (c ≤ k)%nat → present !! c = Some (Z.of_nat c)).
  { intros c Hc.
    rewrite (sorted_prefix present 0 k Hsorted); [f_equal; lia| | |done].
    - apply Forall_forall. intros x Hx. apply Hkeys in Hx.
      rewrite Forall_forall in Hnn. by apply Hnn.
    - intros c' Hc'. apply Hkeys. simpl. by apply Hprefix. }
  assert (Hwpc : ∀ c : nat, (c ≤ k)%nat → wpc !! c = Some (occurrences c cn)).
  { intros c Hc. rewrite Hcounts, list_lookup_fmap, Hpresent by done. done. }
  assert (Hlen : (k < length wpc)%nat).
  { apply lookup_lt_is_Some. rewrite Hwpc by lia. eauto. }
  assert (Hsum : ∀ c : nat, (c ≤ S k)%nat →
                   sumZ (take c wpc) = Z.of_nat (count_below c cn)).
  { induction c as [|c IH]; intros Hc.
    - simpl. rewrite count_below_none; [done|].
      eapply Forall_impl; [exact Hnn|]. simpl. lia.
    - rewrite (take_S_r _ _ _ (Hwpc c ltac:(lia))), sumZ_app, IH by lia.
      simpl. replace (Z.of_nat (S c)) with (Z.of_nat c + 1) by lia.
      rewrite count_below_succ. lia. }
  intros c Hc. rewrite start_offsets_lookup by lia. by rewrite Hsum.
Qed.

(** The positions of the windows of chunk [k] among windows in ascending
    order. *)
Lemma chunk_positions (cn : list Z) (k : nat) (i : nat) :
  nondecreasing cn →
  cn !! i = Some (Z.of_nat k)
  ↔ (count_below k cn ≤ i)%nat ∧ (i < count_below (k + 1) cn)%nat.
Proof.
  intros Hnd. split.
  - intros Hi.
    pose proof (count_below_lookup k cn i _ Hnd Hi) as H1.
    pose proof (count_below_lookup (k + 1) cn i _ Hnd Hi) as H2. lia.
  - intros [Hlo Hhi].
    destruct (lookup_lt_is_Some_2 cn i) as [x Hx].
    { pose proof (count_below_le (k + 1) cn). lia. }
    pose proof (count_below_lookup k cn i _ Hnd Hx) as H1.
    pose proof (count_below_lookup (k + 1) cn i _ Hnd Hx) as H2.
    rewrite Hx. f_equal. lia.
Qed.

Lemma occurrences_nonneg u l : 0 ≤ occurrences u l.
Proof. induction l; simpl; [lia|]. destruct (decide _); lia. Qed.

Lemma rebalance_nonneg (depth : Z) (chunks new_chunk0 : list Z) :
  rebalance_chunks depth chunks = Ok new_chunk0 →
  Forall (λ c, 0 ≤ c) chunks → Forall (λ c, 0 ≤ c) new_chunk0.
Proof.
  intros Hreb Hnn.
  destruct (decide (chunks = [])) as [->|Hne]; [done|].
  destruct (snoc_inv _ Hne) as (front & b & ->).
  destruct (decide (depth ≤ b)) as [Hle|Hgt].
  - rewrite rebalance_keep in Hreb by done. by simplify_eq.
  - destruct (decide (front = [])) as [->|Hfront].
    + simpl in Hreb. rewrite rebalance_single_raises in Hreb by lia. done.
    + destruct (snoc_inv _ Hfront) as (earlier & a & ->).
      rewrite <- app_assoc in *. simpl in *.
      rewrite rebalance_merge in Hreb by lia. simplify_eq.
      apply Forall_app in Hnn as [He Hab].
      apply Forall_cons in Hab as [Ha Hb]. apply Forall_inv in Hb.
      apply Forall_app. split; [done|]. constructor; [lia|constructor].
Qed.

Section ReducerCorrectness.
Context {A B K : Type}.
Implicit Types (values : darray A) (statistic : list A → K → result B).
Implicit Types (kwargs : K) (ws we chunks : list Z).

(** What a successful call of [window_statistic] has computed. *)
Lemma window_statistic_inv values statistic ws we kwargs
    (call : map_overlap_call A B) :
  length ws = length we →
  window_statistic values statistic ws we kwargs = Ok call →
  ∃ (depth : Z) (new taken : list Z),
    np_max (zip_with Z.sub we ws) = Ok depth
    ∧ rebalance_chunks depth (arr_chunks values) = Ok new
    ∧ np_take (_sizes_to_start_offsets new) (chunk_numbers_of new ws) = Ok taken
    ∧ length taken = length ws
    ∧ call = {| mo_values := rechunk values new;
                mo_func := blockwise_moving_stat statistic kwargs
                  (_sizes_to_start_offsets
                     (np_unique_counts (chunk_numbers_of new ws)).2)
                  (np_add_scalar (zip_with Z.sub ws taken) depth)
                  (zip_with Z.add (np_add_scalar (zip_with Z.sub ws taken) depth)
                                  (zip_with Z.sub we ws));
                mo_chunks := (np_unique_counts (chunk_numbers_of new ws)).2;
                mo_depth := depth |}.
Proof.
  intros Hlen Hcall.
  assert (∃ depth new, np_max (zip_with Z.sub we ws) = Ok depth
            ∧ rebalance_chunks depth (arr_chunks values) = Ok new)
    as (depth & new & Hmax & Hreb).
  { unfold window_statistic, np_sub in Hcall.
    rewrite np_binop_same_length in Hcall by done. simpl in Hcall.
    destruct (np_max _) as [depth|]; simpl in Hcall; [|done].
    destruct (rebalance_chunks _ _) as [new|] eqn:Hreb; simpl in Hcall; [|done].
    eauto. }
  destruct (window_statistic_plan values statistic ws we kwargs depth new
              Hlen Hmax Hreb) as (rel & wpc & Hcw & Hrel & Hplan).
  destruct (get_chunked_windows_total new (shape0 values) ws we)
    as (taken & Htake & Htlen & Hcw').
  rewrite Hcw in Hcw'. injection Hcw' as -> ->.
  rewrite Hplan in Hcall. injection Hcall as <-.
  exists depth, new, taken. done.
Qed.


(** The reducer on a chunk whose predecessors all have a window. *)
Lemma reducer_correct values statistic ws we kwargs
    (call : map_overlap_call A B) (k : nat) (x : list A) :
  window_statistic values statistic ws we kwargs = Ok call →
  Forall (λ c, 0 ≤ c) (arr_chunks values) →
  sumZ (arr_chunks values) = shape0 values →
  nondecreasing ws →
  length ws = length we →
  windows_start_inside (shape0 values) ws we →
  (∀ c : nat, (c ≤ k)%nat →
     Z.of_nat c ∈ chunk_numbers_of (arr_chunks (mo_values call)) ws) →
  holds_range (arr_data values) x
    (sumZ (take k (arr_chunks (mo_values call))) - mo_depth call)
    (sumZ (take (S k) (arr_chunks (mo_values call))) + mo_depth call) →
  ∃ o1 o2 : nat,
    (o1 ≤ o2)%nat
    ∧ (∀ i : nat,
         chunk_numbers_of (arr_chunks (mo_values call)) ws !! i = Some (Z.of_nat k)
         ↔ (o1 ≤ i)%nat ∧ (i < o2)%nat)
    ∧ mo_func call x (block_info_at k)
      = comprehension
          (λ '(s, e), statistic (py_slice (arr_data values) s e) kwargs)
          (take (o2 - o1) (drop o1 (zip ws we))).
Proof.
  intros Hcall Hnn Hsum Hws Hlen Hwin Hprefix Hx.
  destruct (window_statistic_inv values statistic ws we kwargs call Hlen Hcall)
    as (depth & new & taken & Hmax & Hreb & Htake & Htlen & ->).
  cbn [mo_values mo_func mo_depth rechunk arr_chunks] in *.
  pose proof (rebalance_nonneg _ _ _ Hreb Hnn) as Hnew.
  pose proof (rebalance_preserves_total_aux _ _ _ Hreb) as Hnewsum.
  rewrite Hsum in Hnewsum.
  set (cn := chunk_numbers_of new ws) in *.
  assert (Hne : ws ≠ []).
  { intros ->. specialize (Hprefix 0%nat ltac:(lia)). by apply elem_of_nil in Hprefix. }
  destruct (depth_is_max ws we Hne Hlen) as (depth' & _ & _ & Hmax' & Hub & _).
  rewrite Hmax in Hmax'. injection Hmax' as <-.
  (* every window lies in a chunk *)
  assert (Hchunk : ∀ (i : nat) (s : Z), ws !! i = Some s →
            ∃ c : nat, cn !! i = Some (Z.of_nat c)
              ∧ (c < length new)%nat
              ∧ sumZ (take c new) ≤ s ∧ s < sumZ (take (S c) new)
              ∧ taken !! i = Some (sumZ (take c new))).
  { intros i s Hs.
    assert (is_Some (we !! i)) as [e He].
    { apply lookup_lt_is_Some. rewrite <- Hlen. by eapply lookup_lt_Some. }
    destruct (Hwin i s e Hs He) as (Hs0 & Hs1 & _).
    destruct (chunk_of_window_start new s Hnew Hs0 ltac:(lia))
      as (c & Hc & Hlt & Hlo & Hhi).
    pose proof (chunk_numbers_lookup new _ _ _ Hs) as Hcn. rewrite Hc in Hcn.
    destruct (comprehension_lookup _ _ _ _ _ Htake Hcn) as (off & Hoff & Htk).
    rewrite (py_index_nonneg _ c (sumZ (take c new))) in Hoff
      by (apply start_offsets_lookup; lia).
    simplify_eq. exists c. done. }
  assert (Hcnnn : Forall (λ c, 0 ≤ c) cn).
  { apply Forall_lookup. intros i c Hc.
    assert (is_Some (ws !! i)) as [s Hs].
    { apply lookup_lt_is_Some. rewrite <- (chunk_numbers_length new).
      by eapply lookup_lt_Some. }
    destruct (Hchunk i s Hs) as (c' & Hc' & _). fold cn in Hc'.
    rewrite Hc in Hc'. simplify_eq. lia. }
  pose proof (chunk_numbers_of_mono new ws Hws) as Hcnmono. fold cn in Hcnmono.
  set (o1 := count_below k cn). set (o2 := count_below (k + 1) cn).
  assert (Ho12 : (o1 ≤ o2)%nat).
  { pose proof (count_below_succ k cn). pose proof (occurrences_nonneg k cn).
    unfold o1, o2. lia. }
  assert (Ho2 : (o2 ≤ length ws)%nat).
  { unfold o2. rewrite <- (chunk_numbers_length new). apply count_below_le. }
  exists o1, o2. split; [done|]. split.
  { intros i. apply chunk_positions. done. }
  rewrite (blockwise_moving_stat_block _ _ _ _ _ _ k (Z.of_nat o1) (Z.of_nat o2)).
  2: { unfold o1. apply (counts_offsets cn k); [done|done|lia]. }
  2: { unfold o2. replace (Z.of_nat k + 1) with (Z.of_nat (S k)) by lia.
       apply (counts_offsets cn k); [done|done|lia]. }
  set (S_ := np_add_scalar (zip_with Z.sub ws taken) depth).
  set (E_ := zip_with Z.add S_ (zip_with Z.sub we ws)).
  assert (HSlen : length S_ = length ws).
  { unfold S_, np_add_scalar. rewrite length_fmap, length_zip_with. lia. }
  assert (HElen : length E_ = length ws).
  { unfold E_. rewrite !length_zip_with. lia. }
  apply comprehension_ext_lookup.
  - rewrite length_zip_with, !py_slice_length by (unfold len; lia).
    rewrite length_take, length_drop, length_zip_with. lia.
  - intros j [a1 a2] [s e] H1 H2.
    apply lookup_take_Some in H2 as [H2 Hj]. rewrite lookup_drop in H2.
    apply lookup_zip_with_Some in H2 as (s' & e' & Heq & Hs & He).
    injection Heq as <- <-.
    apply lookup_zip_with_Some in H1 as (a1' & a2' & Heq & Ha1 & Ha2).
    injection Heq as <- <-.
    rewrite py_slice_lookup in Ha1, Ha2 by lia.
    rewrite decide_True in Ha1, Ha2 by lia.
    replace (Z.to_nat (Z.of_nat o1 + Z.of_nat j)) with (o1 + j)%nat in Ha1, Ha2 by lia.
    assert (Hk : cn !! (o1 + j)%nat = Some (Z.of_nat k)).
    { apply chunk_positions; [done|]. fold o1 o2. lia. }
    destruct (Hchunk _ _ Hs) as (c & Hc & Hclt & Hlo & Hhi & Htk).
    fold cn in Hc. rewrite Hk in Hc.
    assert (c = k) as -> by (injection Hc; lia).
    destruct (Hwin _ _ _ Hs He) as (Hs0 & Hs1 & Hse & He1).
    pose proof (Hub _ _ _ Hs He) as Hdepth.
    unfold S_, np_add_scalar in Ha1.
    rewrite list_lookup_fmap, lookup_zip_with, Hs, Htk in Ha1.
    simpl in Ha1. injection Ha1 as <-.
    unfold E_ in Ha2. rewrite lookup_zip_with in Ha2.
    unfold S_, np_add_scalar in Ha2.
    rewrite list_lookup_fmap, !lookup_zip_with, Hs, He, Htk in Ha2.
    simpl in Ha2. injection Ha2 as <-.
    f_equal.
    rewrite <- (holds_range_slice (arr_data values) x
                  (sumZ (take k new) - depth) (sumZ (take (S k) new) + depth) s e)
      by (first [done | unfold shape0 in *; lia]).
    f_equal; lia.
Qed.

(** X16. The reducer computes the statistic of the right data.  Let the
    array have non-negative chunk lengths summing to its length, let the
    windows be in ascending order of their starts, start inside the array
    and stop no later than its end, and let [window_statistic] return.
    For a chunk [k] such that the chunks 0, ..., [k] all have a window,
    and a block [x] that holds the array's elements from [depth] before
    the start of chunk [k] to [depth] after its end, the reducer returns,
    in window order, the statistic of [data[start:stop]] for exactly the
    windows assigned to chunk [k]; these are the windows at positions
    [o1], ..., [o2 - 1]. *)
Theorem blockwise_moving_stat_correct values statistic ws we kwargs
    (call : map_overlap_call A B) (k : nat) (x : list A) :
  window_statistic values statistic ws we kwargs = Ok call →
  Forall (λ c, 0 ≤ c) (arr_chunks values) →
  sumZ (arr_chunks values) = shape0 values →
  nondecreasing ws →
  length ws = length we →
  windows_start_inside (shape0 values) ws we →
  (∀ c : nat, (c ≤ k)%nat →
     Z.of_nat c ∈ chunk_numbers_of (arr_chunks (mo_values call)) ws) →
  holds_range (arr_data values) x
    (sumZ (take k (arr_chunks (mo_values call))) - mo_depth call)
    (sumZ (take (S k) (arr_chunks (mo_values call))) + mo_depth call) →
  ∃ o1 o2 : nat,
    (o1 ≤ o2)%nat
    ∧ (∀ i : nat,
         chunk_numbers_of (arr_chunks (mo_values call)) ws !! i = Some (Z.of_nat k)
         ↔ (o1 ≤ i)%nat ∧ (i < o2)%nat)
    ∧ mo_func call x (block_info_at k)
      = comprehension
          (λ '(s, e), statistic (py_slice (arr_data values) s e) kwargs)
          (take (o2 - o1) (drop o1 (zip ws we))).
Proof. apply reducer_correct. Qed.

(** *** Every chunk has a window when the step fits into the chunks *)

Lemma get_windows_ascending (L size step : Z) ws we :
  1 ≤ size → 1 ≤ step →
  _get_windows 0 L size step = Ok (ws, we) →
  nondecreasing ws
  ∧ length ws = length we
  ∧ windows_start_inside L ws we
  ∧ (∀ i : nat, i * step < L → ws !! i = Some (i * step)).
Proof.
  intros Hsize Hstep Heq.
  destruct (get_windows_lookup 0 L size step Hstep)
    as (starts & stops & Heq' & Hlen & Hlk & Hstop).
  rewrite Heq in Heq'. injection Heq' as <- <-.
  split; [|split; [done|split]].
  - intros i j a b Hij. rewrite !Hlk.
    repeat destruct (decide _); intros; simplify_eq. nia.
  - intros i s e. rewrite Hlk, Hstop. unfold clip1.
    destruct (decide _); intros; simplify_eq. lia.
  - intros i Hi. rewrite Hlk, decide_True by lia. f_equal; lia.
Qed.

Lemma chunks_all_have_window (chunks ws : list Z) (step : Z) :
  1 ≤ step →
  Forall (λ c, step ≤ c) chunks →
  (∀ i : nat, i * step < sumZ chunks → ws !! i = Some (i * step)) →
  ∀ c : nat, (c < length chunks)%nat → Z.of_nat c ∈ chunk_numbers_of chunks ws.
Proof.
  intros Hstep Hchunks Hws c Hc.
  assert (Hnn : Forall (λ x, 0 ≤ x) chunks).
  { eapply Forall_impl; [exact Hchunks|]. simpl. lia. }
  destruct (lookup_lt_is_Some_2 chunks c Hc) as [size_c Hsize].
  pose proof (sumZ_take_le chunks c Hnn) as [Hoff0 _].
  pose proof (sumZ_take_le chunks (S c) Hnn) as [_ Hoff1].
  assert (Hnext : sumZ (take (S c) chunks) = sumZ (take c chunks) + size_c).
  { rewrite (take_S_r _ _ _ Hsize), sumZ_app. simpl. lia. }
  rewrite Forall_lookup in Hchunks. specialize (Hchunks _ _ Hsize). simpl in Hchunks.
  set (off := sumZ (take c chunks)) in *.
  set (q := (off + step - 1) / step).
  pose proof (Z.div_mod (off + step - 1) step ltac:(lia)) as Hdm.
  pose proof (Z.mod_pos_bound (off + step - 1) step ltac:(lia)) as Hr.
  fold q in Hdm.
  assert (Hq : 0 ≤ q) by (apply Z.div_pos; lia).
  assert (Hw : ws !! Z.to_nat q = Some (q * step)).
  { rewrite Hws; [f_equal; lia|]. rewrite Z2Nat.id by done. nia. }
  destruct (chunk_of_window_start chunks (q * step) Hnn ltac:(nia) ltac:(nia))
    as (c' & Hc' & Hlt' & Hlo & Hhi).
  pose proof (chunk_numbers_lookup chunks _ _ _ Hw) as Hcn. rewrite Hc' in Hcn.
  assert (c' = c) as ->.
  { destruct (decide (c' < c)%nat) as [Hlt|Hge].
    - pose proof (sumZ_take_mono chunks (S c') c Hnn ltac:(lia)). fold off in H. nia.
    - destruct (decide (c < c')%nat) as [Hgt|Hle]; [|lia].
      pose proof (sumZ_take_mono chunks (S c) c' Hnn ltac:(lia)). nia. }
  by eapply list_elem_of_lookup_2.
Qed.

Lemma sorted_lookup_lt (l : list Z) (i j : nat) (a b : Z) :
  StronglySorted Z.lt l → (i < j)%nat → l !! i = Some a → l !! j = Some b → a < b.
Proof.
  intros Hs. revert i j. induction Hs as [|x l Hs IH Hall]; intros i j Hij Ha Hb; [done|].
  destruct j as [|j]; [lia|]. simpl in Hb. destruct i as [|i]; simpl in Ha.
  - simplify_eq. rewrite Forall_forall in Hall.
    apply Hall. by eapply list_elem_of_lookup_2.
  - apply (IH i j); [lia|done..].
Qed.

(** When every chunk index below [n] has a window and no other chunk
    number occurs, [np.unique] returns one count per chunk. *)
Lemma counts_one_per_chunk (cn : list Z) (n : nat) :
  Forall (λ c, 0 ≤ c ∧ c < n) cn →
  (∀ c : nat, (c < n)%nat → Z.of_nat c ∈ cn) →
  length (np_unique_counts cn).2 = n.
Proof.
  intros Hrange Hall.
  destruct (np_unique_counts_spec cn) as (Hsorted & Hkeys & Hcounts & _ & _).
  rewrite Hcounts, length_fmap.
  set (present := (np_unique_counts cn).1) in *.
  destruct n as [|n].
  { destruct cn as [|x cn]; [|apply Forall_inv in Hrange; lia].
    destruct present as [|y p]; [done|].
    pose proof (proj1 (Hkeys y) ltac:(left)) as Hy. by apply elem_of_nil in Hy. }
  assert (Hpre : ∀ c : nat, (c ≤ n)%nat → present !! c = Some (Z.of_nat c)).
  { intros c Hc.
    rewrite (sorted_prefix present 0 n Hsorted); [f_equal; lia| | |done].
    - apply Forall_forall. intros x Hx. apply Hkeys in Hx.
      rewrite Forall_forall in Hrange. by apply Hrange.
    - intros c' Hc'. apply Hkeys. simpl. apply Hall. lia. }
  destruct (decide (length present = S n)) as [|Hne]; [done|]. exfalso.
  assert (S n ≤ length present)%nat.
  { pose proof (lookup_lt_Some _ _ _ (Hpre n ltac:(lia))). lia. }
  destruct (lookup_lt_is_Some_2 present (S n)) as [x Hx]; [lia|].
  pose proof (sorted_lookup_lt present n (S n) _ _ Hsorted ltac:(lia)
                (Hpre n ltac:(lia)) Hx) as Hlt.
  assert (x ∈ cn) as Hin by (apply Hkeys; by eapply list_elem_of_lookup_2).
  rewrite Forall_forall in Hrange. specialize (Hrange _ Hin). simpl in Hrange. lia.
Qed.

(** X17. When the array passes the check of [moving_statistic] and the
    step does not exceed the size, every chunk of the array the reducer
    works on has at least one window, and [windows_per_chunk] has exactly
    one entry per chunk. *)
Theorem moving_statistic_every_chunk_has_window values statistic size step kwargs
    (front : list Z) (last_chunk : Z) :
  arr_chunks values = front ++ [last_chunk] →
  sumZ (arr_chunks values) = shape0 values →
  0 ≤ last_chunk →
  Forall (λ c, size ≤ c) (if decide (front = []) then [last_chunk] else front) →
  1 ≤ size → 1 ≤ step → step ≤ size →
  ∃ (call : map_overlap_call A B) (ws we : list Z),
    moving_statistic values statistic size step kwargs = Ok call
    ∧ _get_windows 0 (shape0 values) size step = Ok (ws, we)
    ∧ (∀ c : nat, (c < length (arr_chunks (mo_values call)))%nat →
         Z.of_nat c ∈ chunk_numbers_of (arr_chunks (mo_values call)) ws)
    ∧ length (mo_chunks call) = length (arr_chunks (mo_values call)).
Proof.
  intros Hchunks Hsum Hlast Hcheck Hsize Hstep Hss.
  destruct (moving_statistic_plan values statistic size step kwargs front
              last_chunk Hchunks Hsum Hlast Hcheck Hsize Hstep)
    as (call & ws & we & Hwin & Hlen & Hws & Hms & Hdepth & Hall & Htotal & Hdata).
  destruct (get_windows_ascending _ _ _ _ _ Hsize Hstep Hwin)
    as (Hasc & _ & Hinside & Hstarts).
  exists call, ws, we. split; [done|]. split; [done|].
  set (new := arr_chunks (mo_values call)) in *.
  assert (Hhas : ∀ c : nat, (c < length new)%nat → Z.of_nat c ∈ chunk_numbers_of new ws).
  { apply (chunks_all_have_window new ws step Hstep).
    - eapply Forall_impl; [exact Hall|]. simpl. lia.
    - intros i Hi. apply Hstarts. lia. }
  split; [done|].
  destruct (window_statistic_inv values statistic ws we kwargs call Hlen Hws)
    as (depth & new' & taken & _ & _ & _ & _ & Hcall).
  assert (new' = new) as -> by (unfold new; by rewrite Hcall).
  rewrite Hcall. cbn [mo_chunks].
  apply counts_one_per_chunk; [|done].
  apply Forall_lookup. intros i c Hc.
  assert (is_Some (ws !! i)) as [s Hs].
  { apply lookup_lt_is_Some. rewrite <- (chunk_numbers_length new).
    by eapply lookup_lt_Some. }
  assert (is_Some (we !! i)) as [e He].
  { apply lookup_lt_is_Some. rewrite <- Hlen. by eapply lookup_lt_Some. }
  destruct (Hinside i s e Hs He) as (Hs0 & Hs1 & _).
  destruct (chunk_of_window_start new s) as (c' & Hc' & Hlt & _).
  { eapply Forall_impl; [exact Hall|]. simpl. lia. }
  { done. }
  { lia. }
  rewrite (chunk_numbers_lookup _ _ _ _ Hs), Hc' in Hc. simplify_eq. lia.
Qed.

(** X18. End to end on one block.  When the array passes the check of
    [moving_statistic] and the step does not exceed the size, then for
    every chunk [k] of the array the reducer works on, and every block [x]
    that holds the array's elements from [size] before the start of the
    chunk to [size] after its end, the reducer returns, in window order,
    the statistic of [data[start:stop]] for exactly the windows that start
    in chunk [k]. *)
Theorem moving_statistic_block_correct values statistic size step kwargs
    (front : list Z) (last_chunk : Z) :
  arr_chunks values = front ++ [last_chunk] →
  sumZ (arr_chunks values) = shape0 values →
  0 ≤ last_chunk →
  Forall (λ c, size ≤ c) (if decide (front = []) then [last_chunk] else front) →
  1 ≤ size → 1 ≤ step → step ≤ size →
  ∃ (call : map_overlap_call A B) (ws we : list Z),
    moving_statistic values statistic size step kwargs = Ok call
    ∧ _get_windows 0 (shape0 values) size step = Ok (ws, we)
    ∧ ∀ (k : nat) (x : list A),
        (k < length (arr_chunks (mo_values call)))%nat →
        holds_range (arr_data values) x
          (sumZ (take k (arr_chunks (mo_values call))) - size)
          (sumZ (take (S k) (arr_chunks (mo_values call))) + size) →
        ∃ o1 o2 : nat,
          (o1 ≤ o2)%nat
          ∧ (∀ i : nat,
               chunk_numbers_of (arr_chunks (mo_values call)) ws !! i
               = Some (Z.of_nat k)
               ↔ (o1 ≤ i)%nat ∧ (i < o2)%nat)
          ∧ mo_func call x (block_info_at k)
            = comprehension
                (λ '(s, e), statistic (py_slice (arr_data values) s e) kwargs)
                (take (o2 - o1) (drop o1 (zip ws we))).
Proof.
  intros Hchunks Hsum Hlast Hcheck Hsize Hstep Hss.
  destruct (moving_statistic_plan values statistic size step kwargs front
              last_chunk Hchunks Hsum Hlast Hcheck Hsize Hstep)
    as (call & ws & we & Hwin & Hlen & Hws & Hms & Hdepth & Hall & Htotal & Hdata).
  destruct (get_windows_ascending _ _ _ _ _ Hsize Hstep Hwin)
    as (Hasc & _ & Hinside & Hstarts).
  exists call, ws, we. split; [done|]. split; [done|].
  intros k x Hk Hx.
  apply (reducer_correct values statistic ws we kwargs call k x); try done.
  - rewrite Hchunks. apply Forall_app. split.
    + destruct (decide (front = [])) as [->|]; [constructor|].
      eapply Forall_impl; [exact Hcheck|]. simpl. lia.
    + by constructor.
  - intros c Hc.
    apply (chunks_all_have_window (arr_chunks (mo_values call)) ws step Hstep).
    + eapply Forall_impl; [exact Hall|]. simpl. lia.
    + intros i Hi. apply Hstarts. lia.
    + lia.
  - by rewrite Hdepth.
Qed.

(** X11. The arguments of the [map_overlap] call.  Whenever
    [window_statistic], given one stop per start, gets as far as its
    [map_overlap] call, the array it passes holds the same data in chunks
    of the same total length, the depth is the greatest window length,
    and the chunks declared for the output are each at least 1 and sum to
    the number of windows. *)
Theorem window_statistic_call_arguments values statistic ws we kwargs
    (call : map_overlap_call A B) :
  length ws = length we →
  window_statistic values statistic ws we kwargs = Ok call →
  arr_data (mo_values call) = arr_data values
  ∧ sumZ (arr_chunks (mo_values call)) = sumZ (arr_chunks values)
  ∧ is_max_window_length (mo_depth call) ws we
  ∧ Forall (λ k, 1 ≤ k) (mo_chunks call)
  ∧ sumZ (mo_chunks call) = len ws.
Proof.
  intros Hlen Hcall.
  destruct (window_statistic_inv values statistic ws we kwargs call Hlen Hcall)
    as (depth & new & taken & Hmax & Hreb & _ & _ & ->).
  cbn [mo_values mo_chunks mo_depth rechunk arr_data arr_chunks].
  assert (Hne : ws ≠ []).
  { intros ->. destruct we; simpl in *; done. }
  destruct (depth_is_max ws we Hne Hlen) as (depth' & _ & _ & Hmax' & Hdepth).
  rewrite Hmax in Hmax'. injection Hmax' as <-.
  destruct (np_unique_counts_spec (chunk_numbers_of new ws))
    as (_ & _ & _ & Hpos & Hsum).
  split; [done|]. split; [by apply (rebalance_preserves_total_aux depth)|].
  split; [done|]. split; [done|].
  rewrite Hsum. unfold len. by rewrite chunk_numbers_length.
Qed.

(** X14. The halo fits.  When the chunk lengths sum to the length of the
    array, the array passes the check of [moving_statistic] (every chunk
    but the last, or the only chunk, is at least [size] long) and
    [1 ≤ step ≤ size], [moving_statistic] reaches its [map_overlap] call
    with a depth equal to [size], with every chunk of the array at least as
    long as the depth, so that the halo of a block never reaches beyond
    the neighbouring chunk, and with one output chunk declared per chunk
    of the array; the data and the total length are unchanged. *)
Theorem moving_statistic_halo_fits values statistic size step kwargs
    (front : list Z) (last_chunk : Z) :
  arr_chunks values = front ++ [last_chunk] →
  sumZ (arr_chunks values) = shape0 values →
  0 ≤ last_chunk →
  Forall (λ c, size ≤ c) (if decide (front = []) then [last_chunk] else front) →
  1 ≤ size → 1 ≤ step → step ≤ size →
  ∃ call : map_overlap_call A B,
    moving_statistic values statistic size step kwargs = Ok call
    ∧ mo_depth call = size
    ∧ Forall (λ c, mo_depth call ≤ c) (arr_chunks (mo_values call))
    ∧ length (mo_chunks call) = length (arr_chunks (mo_values call))
    ∧ sumZ (arr_chunks (mo_values call)) = shape0 values
    ∧ arr_data (mo_values call) = arr_data values.
Proof.
  intros Hchunks Hsum Hlast Hcheck Hsize Hstep Hss.
  destruct (moving_statistic_plan values statistic size step kwargs front
              last_chunk Hchunks Hsum Hlast Hcheck Hsize Hstep)
    as (call & ws & we & Hwin & Hlen & Hws & Hms & Hdepth & Hall & Htotal & Hdata).
  destruct (get_windows_ascending _ _ _ _ _ Hsize Hstep Hwin)
    as (_ & _ & Hinside & Hstarts).
  exists call. rewrite Hdepth.
  split; [done|]. split; [done|]. split; [done|]. split; [|done].
  set (new := arr_chunks (mo_values call)) in *.
  assert (Hnn : Forall (λ c, 0 ≤ c) new).
  { eapply Forall_impl; [exact Hall|]. simpl. lia. }
  assert (Hhas : ∀ c : nat, (c < length new)%nat → Z.of_nat c ∈ chunk_numbers_of new ws).
  { apply (chunks_all_have_window new ws step Hstep).
    - eapply Forall_impl; [exact Hall|]. simpl. lia.
    - intros i Hi. apply Hstarts. lia. }
  destruct (window_statistic_inv values statistic ws we kwargs call Hlen Hws)
    as (depth & new' & taken & _ & _ & _ & _ & Hcall).
  assert (new' = new) as -> by (unfold new; by rewrite Hcall).
  rewrite Hcall. cbn [mo_chunks].
  apply counts_one_per_chunk; [|done].
  apply Forall_lookup. intros i c Hc.
  assert (is_Some (ws !! i)) as [s Hs].
  { apply lookup_lt_is_Some. rewrite <- (chunk_numbers_length new).
    by eapply lookup_lt_Some. }
  assert (is_Some (we !! i)) as [e He].
  { apply lookup_lt_is_Some. rewrite <- Hlen. by eapply lookup_lt_Some. }
  destruct (Hinside i s e Hs He) as (Hs0 & Hs1 & _).
  destruct (chunk_of_window_start new s Hnn Hs0 ltac:(lia)) as (c' & Hc' & Hlt & _).
  rewrite (chunk_numbers_lookup _ _ _ _ Hs), Hc' in Hc. simplify_eq. lia.
Qed.

End ReducerCorrectness.

(** * Instances on example inputs *)

Lemma window_statistic_call_arguments_witness :
  arr_data (mo_values example_call) = arr_data example_values
  ∧ sumZ (arr_chunks (mo_values example_call)) = sumZ (arr_chunks example_values)
  ∧ is_max_window_length (mo_depth example_call) [0; 3; 6; 9] [3; 6; 9; 10]
  ∧ Forall (λ k, 1 ≤ k) (mo_chunks example_call)
  ∧ sumZ (mo_chunks example_call) = len [0; 3; 6; 9].
Proof.
  apply (window_statistic_call_arguments example_values sum_statistic
           [0; 3; 6; 9] [3; 6; 9; 10] tt example_call);
    reflexivity.
Defined.

Lemma moving_statistic_halo_fits_witness :
  ∃ call : map_overlap_call Z Z,
    moving_statistic example_values sum_statistic 3 3 tt = Ok call
    ∧ mo_depth call = 3
    ∧ Forall (λ c, mo_depth call ≤ c) (arr_chunks (mo_values call))
    ∧ length (mo_chunks call) = length (arr_chunks (mo_values call))
    ∧ sumZ (arr_chunks (mo_values call)) = shape0 example_values
    ∧ arr_data (mo_values call) = arr_data example_values.
Proof.
  apply (moving_statistic_halo_fits example_values sum_statistic 3 3 tt [4; 3] 3).
  - reflexivity.
  - reflexivity.
  - lia.
  - cbn. repeat constructor; lia.
  - lia.
  - lia.
  - lia.
Defined.

Lemma window_statistic_single_chunk_short_witness :
  window_statistic {| arr_data := [0; 1; 2; 3; 4]; arr_chunks := [5] |}
    sum_statistic [0] [8] tt = Raise IndexError.
Proof.
  apply (window_statistic_single_chunk_short
           {| arr_data := [0; 1; 2; 3; 4]; arr_chunks := [5] |}
           sum_statistic [0] [8] tt 5 0 0 8);
    [reflexivity | reflexivity | reflexivity | reflexivity | lia].
Defined.

Lemma blockwise_moving_stat_correct_witness :
  ∃ o1 o2 : nat,
    (o1 ≤ o2)%nat
    ∧ (∀ i : nat,
         chunk_numbers_of (arr_chunks (mo_values example_call)) [0; 3; 6; 9] !! i
         = Some (Z.of_nat 1)
         ↔ (o1 ≤ i)%nat ∧ (i < o2)%nat)
    ∧ mo_func example_call [1; 2; 3; 4; 5; 6; 7; 8; 9] (block_info_at 1%nat)
      = comprehension
          (λ '(s, e), sum_statistic (py_slice (arr_data example_values) s e) tt)
          (take (o2 - o1) (drop o1 (zip [0; 3; 6; 9] [3; 6; 9; 10]))).
Proof.
  apply (blockwise_moving_stat_correct example_values sum_statistic
           [0; 3; 6; 9] [3; 6; 9; 10] tt example_call 1
           [1; 2; 3; 4; 5; 6; 7; 8; 9]).
  - reflexivity.
  - cbn. repeat constructor; lia.
  - reflexivity.
  - intros i j a b Hij Ha Hb.
    destruct i as [|[|[|[|i]]]], j as [|[|[|[|j]]]];
      simpl in *; simplify_eq; lia.
  - reflexivity.
  - intros [|[|[|[|i]]]] s e Hs He; simpl in *; simplify_eq;
      vm_compute; repeat split; congruence.
  - intros [|[|c]] Hc; [| |lia]; vm_compute.
    + apply list_elem_of_In. simpl. tauto.
    + apply list_elem_of_In. simpl. tauto.
  - intros p a Hp Hlo Hhi. vm_compute in Hlo, Hhi.
    destruct p as [|[|[|[|[|[|[|[|[|[|p]]]]]]]]]];
      simpl in Hp; simplify_eq; vm_compute; try reflexivity;
      try (exfalso; apply Hlo; reflexivity);
      try (exfalso; vm_compute in Hhi; discriminate).
Defined.

Lemma moving_statistic_every_chunk_has_window_witness :
  ∃ (call : map_overlap_call Z Z) (ws we : list Z),
    moving_statistic example_values sum_statistic 3 3 tt = Ok call
    ∧ _get_windows 0 (shape0 example_values) 3 3 = Ok (ws, we)
    ∧ (∀ c : nat, (c < length (arr_chunks (mo_values call)))%nat →
         Z.of_nat c ∈ chunk_numbers_of (arr_chunks (mo_values call)) ws)
    ∧ length (mo_chunks call) = length (arr_chunks (mo_values call)).
Proof.
  apply (moving_statistic_every_chunk_has_window
           example_values sum_statistic 3 3 tt [4; 3] 3).
  - reflexivity.
  - reflexivity.
  - lia.
  - cbn. repeat constructor; lia.
  - lia.
  - lia.
  - lia.
Defined.

Lemma moving_statistic_block_correct_witness :
  ∃ (call : map_overlap_call Z Z) (ws we : list Z),
    moving_statistic example_values sum_statistic 3 3 tt = Ok call
    ∧ _get_windows 0 (shape0 example_values) 3 3 = Ok (ws, we)
    ∧ ∀ (k : nat) (x : list Z),
        (k < length (arr_chunks (mo_values call)))%nat →
        holds_range (arr_data example_values) x
          (sumZ (take k (arr_chunks (mo_values call))) - 3)
          (sumZ (take (S k) (arr_chunks (mo_values call))) + 3) →
        ∃ o1 o2 : nat,
          (o1 ≤ o2)%nat
          ∧ (∀ i : nat,
               chunk_numbers_of (arr_chunks (mo_values call)) ws !! i
               = Some (Z.of_nat k)
               ↔ (o1 ≤ i)%nat ∧ (i < o2)%nat)
          ∧ mo_func call x (block_info_at k)
            = comprehension
                (λ '(s, e), sum_statistic (py_slice (arr_data example_values) s e) tt)
                (take (o2 - o1) (drop o1 (zip ws we))).
Proof.
  apply (moving_statistic_block_correct
           example_values sum_statistic 3 3 tt [4; 3] 3).
  - reflexivity.
  - reflexivity.
  - lia.
  - cbn. repeat constructor; lia.
  - lia.
  - lia.
  - lia.
Defined.

(** * Window definition on a dataset *)

Lemma windows_dataset_has_windows (ws we : list Z) :
  has_windows (windows_dataset ws we) = true.
Proof.
  unfold has_windows, ds_contains, windows_dataset. cbn [ds_vars].
  rewrite lookup_insert_eq, lookup_insert_ne by done.
  rewrite lookup_singleton_eq.
  rewrite !bool_decide_eq_true_2 by eauto. done.
Qed.

(** X19. [window] hands the windows of [_get_windows 0 n size step], for
    the size [n] of the dimension [variants], to the merge as a dataset
    that has windows, and returns what the merge returns; so whenever the
    merge keeps the variables of the dataset merged in, the dataset that
    [window] returns has windows. *)
Theorem window_has_windows
    (conditional_merge_datasets : dataset → dataset → bool → result dataset)
    (ds : dataset) (size step : Z) (merge : bool) (n : Z) :
  keeps_new_variables conditional_merge_datasets →
  ds_dims ds !! "variants" = Some n →
  step ≠ 0 →
  ∃ ws we : list Z,
    _get_windows 0 n size step = Ok (ws, we)
    ∧ has_windows (windows_dataset ws we) = true
    ∧ window conditional_merge_datasets ds size step merge
      = conditional_merge_datasets ds (windows_dataset ws we) merge
    ∧ ∀ out : dataset,
        window conditional_merge_datasets ds size step merge = Ok out →
        has_windows out = true.
Proof.
  intros Hkeeps Hdim Hstep.
  assert (∃ ws we, _get_windows 0 n size step = Ok (ws, we)) as (ws & we & Hw).
  { unfold _get_windows. rewrite np_arange_ok by done. simpl. eauto. }
  exists ws, we. split; [done|].
  pose proof (windows_dataset_has_windows ws we) as Hnew.
  split; [done|].
  assert (Heq : window conditional_merge_datasets ds size step merge
                = conditional_merge_datasets ds (windows_dataset ws we) merge).
  { unfold window. rewrite Hdim. simpl. rewrite Hw. done. }
  split; [done|]. intros out Hout. rewrite Heq in Hout.
  unfold has_windows in *. apply andb_true_iff in Hnew as [H1 H2].
  apply andb_true_iff. split; by eapply Hkeeps.
Qed.

Lemma example_merge_keeps : keeps_new_variables example_merge.
Proof.
  intros ds new_ds merged merge name Hm Hin. unfold example_merge in Hm.
  destruct merge; simplify_eq; [|done].
  unfold ds_contains in *. cbn [ds_vars].
  apply bool_decide_eq_true in Hin as [v Hv].
  apply bool_decide_eq_true. exists v.
  apply lookup_union_Some_l. done.
Qed.

Lemma window_has_windows_witness :
  ∃ ws we : list Z,
    _get_windows 0 10 3 3 = Ok (ws, we)
    ∧ has_windows (windows_dataset ws we) = true
    ∧ window example_merge
        {| ds_dims := {[ "variants" := 10 ]}; ds_vars := ∅ |} 3 3 true
      = example_merge {| ds_dims := {[ "variants" := 10 ]}; ds_vars := ∅ |}
          (windows_dataset ws we) true
    ∧ ∀ out : dataset,
        window example_merge
          {| ds_dims := {[ "variants" := 10 ]}; ds_vars := ∅ |} 3 3 true = Ok out →
        has_windows out = true.
Proof.
  apply (window_has_windows example_merge
           {| ds_dims := {[ "variants" := 10 ]}; ds_vars := ∅ |} 3 3 true 10).
  - apply example_merge_keeps.
  - reflexivity.
  - lia.
Defined.

(** * Degenerate sizes and the rows of a block *)

(** X20. With [size = 0] and a positive step every window is empty: the
    stops are the starts. *)
Theorem get_windows_zero_size (start stop step : Z) :
  1 ≤ step →
  ∃ starts : list Z, _get_windows start stop 0 step = Ok (starts, starts).
Proof.
  intros Hstep.
  destruct (get_windows_lookup start stop 0 step Hstep)
    as (starts & stops & Heq & Hlen & Hlk & Hstop).
  exists starts. rewrite Heq. do 2 f_equal.
  apply list_eq. intros i. rewrite Hlk, Hstop. unfold clip1.
  destruct (decide _); [|done]. f_equal. nia.
Qed.

Lemma get_windows_zero_size_witness :
  ∃ starts : list Z, _get_windows 0 10 0 3 = Ok (starts, starts).
Proof. apply (get_windows_zero_size 0 10 3). lia. Defined.

(** X21. The block at position [k] gets as many rows as the [k]-th entry
    of [windows_per_chunk] says, which is at least one, and a block at a
    position beyond the entries of [windows_per_chunk] raises
    [IndexError]: no block returns an empty result. *)
Theorem blockwise_moving_stat_row_count {A B K : Type}
    (values : darray A) (statistic : list A → K → result B)
    (ws we : list Z) (kwargs : K)
    (call : map_overlap_call A B) (k : nat) (x : list A) :
  length ws = length we →
  window_statistic values statistic ws we kwargs = Ok call →
  (∀ (c : Z) (out : list B),
      mo_chunks call !! k = Some c →
      mo_func call x (block_info_at k) = Ok out →
      1 ≤ c ∧ len out = c)
  ∧ ((length (mo_chunks call) ≤ k)%nat →
     mo_func call x (block_info_at k) = Raise IndexError).
Proof. apply blockwise_moving_stat_rows. Qed.

Lemma blockwise_moving_stat_row_count_witness :
  (∀ (c : Z) (out : list Z),
      mo_chunks example_call !! 0%nat = Some c →
      mo_func example_call [0; 0; 0; 0; 1; 2; 3; 4; 5; 6] (block_info_at 0%nat) = Ok out →
      1 ≤ c ∧ len out = c)
  ∧ ((length (mo_chunks example_call) ≤ 0)%nat →
     mo_func example_call [0; 0; 0; 0; 1; 2; 3; 4; 5; 6] (block_info_at 0%nat)
     = Raise IndexError).
Proof.
  apply (blockwise_moving_stat_row_count example_values sum_statistic
           [0; 3; 6; 9] [3; 6; 9; 10] tt example_call 0
           [0; 0; 0; 0; 1; 2; 3; 4; 5; 6]);
    reflexivity.
Defined.
